(* ===================================================================== *)
(* plink: the audio manager (audio.js) as a shallow embedding            *)
(*                                                                       *)
(*   class AudioManager   -- sound library, play, stopLoop, speak,       *)
(*                           speakWithSoundEffects                       *)
(*   class AudioSequence  -- add, doNext, start, hasNext, cancel,        *)
(*                           callback, sleep                             *)
(*                                                                       *)
(* JavaScript objects live in an explicit world: the manager's fields,   *)
(* a heap of AudioSequence objects addressed by index, and the part of   *)
(* the browser the code talks to (audio nodes, speech synthesis, timers, *)
(* the window event target, the console).  Methods are functions in a    *)
(* state-and-exception monad over that world.                            *)
(*                                                                       *)
(* Of addSound only the registry write that ends it is modelled (the     *)
(* fetch and the decoding belong to the platform); addFreesound ends in  *)
(* the same write; playTone touches none of the state below.             *)
(* ===================================================================== *)

From Stdlib Require Import NArith QArith String Ascii List Lia Bool.
From stdpp Require Import base option list gmap.
Import ListNotations.

Local Open Scope N_scope.
Local Open Scope nat_scope.

(* --------------------------------------------------------------------- *)
(* 1. JavaScript strings                                                  *)
(* --------------------------------------------------------------------- *)

(* A JavaScript string is a sequence of UTF-16 code units. *)
Abbreviation jsstring := (list N).

Fixpoint js (s : string) : jsstring :=
  match s with
  | EmptyString => []
  | String a s' => N_of_ascii a :: js s'
  end.

Definition SPACE : N := 32%N.
Definition LBRACE : N := 123%N.
Definition RBRACE : N := 125%N.

(* LineTerminator of ECMAScript: LF, CR, LS, PS.  The regular expression
   atom [.] matches every code unit but these. *)
Definition is_line_terminator (c : N) : bool :=
  (c =? 10)%N || (c =? 13)%N || (c =? 8232)%N || (c =? 8233)%N.

(* formattedText.split(' ') : cut at every single space; consecutive
   spaces give empty tokens, and the result is never empty. *)
Fixpoint split_space (s : jsstring) : list jsstring :=
  match s with
  | [] => [[]]
  | c :: s' =>
      if (c =? SPACE)%N then [] :: split_space s'
      else match split_space s' with
           | t :: ts => (c :: t) :: ts
           | [] => [[c]]
           end
  end.

(* The pattern is: two opening braces, a greedy capture group of any
   characters (dot star), two closing braces.  Here the part after the
   opening braces, tried at one position: the greedy group takes the
   longest run of non-terminators after which two closing braces still
   follow, so the capture ends at the LAST double closing brace of the
   run. *)
Definition starts_with_close (r : jsstring) : bool :=
  match r with
  | c1 :: c2 :: _ => (c1 =? RBRACE)%N && (c2 =? RBRACE)%N
  | _ => false
  end.

Fixpoint capture_until_close (r : jsstring) : option jsstring :=
  match r with
  | [] => None
  | c :: r' =>
      if is_line_terminator c then None
      else match capture_until_close r' with
           | Some cap => Some (c :: cap)
           | None => if starts_with_close r then Some [] else None
           end
  end.

(* tokens[i].match(pattern) : the pattern string is compiled to a regular
   expression (braces that open no quantifier are literal) and searched,
   unanchored, from the left.  [Some cap] is the match array's element
   [1], the capture group; [None] is [null]. *)
Fixpoint cue_match (tok : jsstring) : option jsstring :=
  match tok with
  | [] => None
  | c :: tok' =>
      let here :=
        if (c =? LBRACE)%N then
          match tok' with
          | c2 :: r => if (c2 =? LBRACE)%N then capture_until_close r else None
          | [] => None
          end
        else None in
      match here with
      | Some cap => Some cap
      | None => cue_match tok'
      end
  end.

(* --------------------------------------------------------------------- *)
(* 2. Data                                                                *)
(* --------------------------------------------------------------------- *)

(* Decoded audio data is an opaque platform handle. *)
Definition AudioBuffer := nat.

(* The second argument of queue.add for a phrase: { voicePreference }. *)
Record Prefs := { voicePreference : option jsstring }.

(* { item: itemToAdd, mediaType: audioType, prefs: prefs } ; [prefs] is
   undefined ([None]) when add is called with two arguments. *)
Record QueueItem := {
  item : jsstring;
  mediaType : jsstring;
  prefs : option Prefs
}.

(* this.isPlaying is never set by the constructor (which sets
   this.playing instead), so it is [undefined] until start() runs. *)
Record AudioSequence := {
  queue : list QueueItem;
  spacing : N;
  playing : bool;
  isPlaying : option bool;
  currentItem : option QueueItem
}.

(* new AudioSequence(audioManager, spacing = 100) *)
Definition new_AudioSequence (spacing : N) : AudioSequence :=
  {| queue := []; spacing := spacing; playing := false;
     isPlaying := None; currentItem := None |}.

Definition set_queue (l : list QueueItem) (s : AudioSequence) : AudioSequence :=
  {| queue := l; spacing := spacing s; playing := playing s;
     isPlaying := isPlaying s; currentItem := currentItem s |}.

(* add(itemToAdd, audioType, prefs) *)
Definition add (itemToAdd audioType : jsstring) (p : option Prefs)
    (s : AudioSequence) : AudioSequence :=
  set_queue (queue s ++ [{| item := itemToAdd; mediaType := audioType; prefs := p |}]) s.

(* hasNext() *)
Definition hasNext (s : AudioSequence) : bool := 0 <? length (queue s).

(* cancel() *)
Definition cancel (s : AudioSequence) : AudioSequence :=
  {| queue := []; spacing := spacing s; playing := playing s;
     isPlaying := Some false; currentItem := None |}.

Definition truthy (b : option bool) : bool :=
  match b with Some true => true | _ => false end.

(* --------------------------------------------------------------------- *)
(* 3. The parser of speakWithSoundEffects                                 *)
(* --------------------------------------------------------------------- *)

Definition TEXT : jsstring := js "text".
Definition SOUND : jsstring := js "sound".

(* One turn of the [for] loop over the tokens, on the local variables
   [buffer] and [queue]. *)
Definition parse_token (vp : option jsstring) (tok : jsstring)
    (st : jsstring * AudioSequence) : jsstring * AudioSequence :=
  let '(buffer, queue) := st in
  match cue_match tok with
  | Some soundName =>
      let '(buffer1, queue1) :=
        if 0 <? length buffer
        then ([], add buffer TEXT (Some {| voicePreference := vp |}) queue)
        else (buffer, queue) in
      (buffer1, add soundName SOUND None queue1)
  | None => (buffer ++ [SPACE] ++ tok, queue)
  end.

Fixpoint parse_loop (vp : option jsstring) (tokens : list jsstring)
    (st : jsstring * AudioSequence) : jsstring * AudioSequence :=
  match tokens with
  | [] => st
  | tok :: rest => parse_loop vp rest (parse_token vp tok st)
  end.

(* The sequence object as it stands when queue.start() is reached. *)
Definition parse (formattedText : jsstring) (vp : option jsstring) : AudioSequence :=
  let '(buffer, queue) :=
    parse_loop vp (split_space formattedText) ([], new_AudioSequence 100%N) in
  if 0 <? length buffer
  then add buffer TEXT (Some {| voicePreference := vp |}) queue
  else queue.

(* --------------------------------------------------------------------- *)
(* 4. The world: manager fields, sequence heap, platform                  *)
(* --------------------------------------------------------------------- *)

(* Functions handed to the platform as completion handlers. *)
Inductive Callback :=
| SeqCallback (q : nat)    (* (e) => this.callback(), [this] the sequence at heap index q *)
| GameCallback (k : nat).  (* a function of the game script, opaque here *)

(* The options object of play; the defaults are those of the signature. *)
Record PlayOptions := {
  o_callback : option Callback;
  o_volume : Q;
  o_panValue : Q;
  o_loop : bool;
  o_offset : Q
}.

Definition play_defaults : PlayOptions :=
  {| o_callback := None; o_volume := 1%Q; o_panValue := 0%Q;
     o_loop := false; o_offset := 0%Q |}.

(* The options object of speak. *)
Record SpeakOptions := {
  s_callback : option Callback;
  s_voicePreference : option jsstring;
  s_speechRate : Q
}.

(* { soundName, loopHandle, isPlaying } as pushed on this.loops *)
Record LoopEntry := {
  soundName : jsstring;
  loopHandle : nat;
  loop_isPlaying : bool
}.

Inductive Node :=
| NodeId (n : nat)
| Destination.             (* this.context.destination *)

(* What the code does to the platform, in the order it does it.  The
   last two are marks of the sequencer's own progress: the console line
   doNext writes for the item it takes, tagged here with the sequence
   that wrote it, and the entry into callback(). *)
Inductive Event :=
| CreateBufferSource (n : nat)
| SetBuffer (n : nat) (b : AudioBuffer)
| SetLoop (n : nat)
| CreateGain (n : nat) (gain : Q)
| CreatePanner (n : nat) (pan : Q)
| Connect (src : nat) (dst : Node)
| Start (n : nat) (when : Q)
| Stop (n : nat)
| SoundEffectEvent (name : jsstring) (panValue volume : Q) (loop : bool)
| SpeechSpeak (text : jsstring) (rate : Q) (voice : option jsstring)
| SpeakEvent (text : jsstring)
| ConsoleLog (q : nat) (it : QueueItem)   (* console.log(firstItem) in doNext of sequence q *)
| CallbackEntered (q : nat).              (* callback() of sequence q was invoked *)

(* Handlers the platform holds and will invoke later. *)
Inductive Pending :=
| OnEnded (node : nat) (cb : Callback)    (* sampleSource.onended = callback *)
| OnEnd (cb : Callback)                   (* utt.onend = callback *)
| Timeout (due : N) (q : nat).            (* sleep(ms).then(() => this.doNext()) *)

Record World := {
  (* AudioManager *)
  soundLibrary : gmap jsstring AudioBuffer;
  loops : list LoopEntry;
  initialized : bool;
  mgr_queue : option nat;                 (* this.queue of the manager *)
  (* heap of AudioSequence objects *)
  sequences : list AudioSequence;
  (* platform *)
  voices : list jsstring;                 (* speechSynthesis.getVoices(), by name *)
  next_node : nat;
  pending : list Pending;
  clock : N;                              (* milliseconds *)
  log : list (N * Event)                  (* most recent first *)
}.

(* new AudioManager() on a platform offering [vs] as voices *)
Definition new_AudioManager (vs : list jsstring) : World :=
  {| soundLibrary := ∅; loops := []; initialized := false; mgr_queue := None;
     sequences := []; voices := vs; next_node := 0; pending := [];
     clock := 0%N; log := [] |}.

Definition set_soundLibrary (x : gmap jsstring AudioBuffer) (w : World) : World :=
  {| soundLibrary := x; loops := loops w; initialized := initialized w;
     mgr_queue := mgr_queue w; sequences := sequences w; voices := voices w;
     next_node := next_node w; pending := pending w; clock := clock w; log := log w |}.

Definition set_loops (x : list LoopEntry) (w : World) : World :=
  {| soundLibrary := soundLibrary w; loops := x; initialized := initialized w;
     mgr_queue := mgr_queue w; sequences := sequences w; voices := voices w;
     next_node := next_node w; pending := pending w; clock := clock w; log := log w |}.

Definition set_mgr_queue (x : option nat) (w : World) : World :=
  {| soundLibrary := soundLibrary w; loops := loops w; initialized := initialized w;
     mgr_queue := x; sequences := sequences w; voices := voices w;
     next_node := next_node w; pending := pending w; clock := clock w; log := log w |}.

Definition set_sequences (x : list AudioSequence) (w : World) : World :=
  {| soundLibrary := soundLibrary w; loops := loops w; initialized := initialized w;
     mgr_queue := mgr_queue w; sequences := x; voices := voices w;
     next_node := next_node w; pending := pending w; clock := clock w; log := log w |}.

Definition set_next_node (x : nat) (w : World) : World :=
  {| soundLibrary := soundLibrary w; loops := loops w; initialized := initialized w;
     mgr_queue := mgr_queue w; sequences := sequences w; voices := voices w;
     next_node := x; pending := pending w; clock := clock w; log := log w |}.

Definition set_pending (x : list Pending) (w : World) : World :=
  {| soundLibrary := soundLibrary w; loops := loops w; initialized := initialized w;
     mgr_queue := mgr_queue w; sequences := sequences w; voices := voices w;
     next_node := next_node w; pending := x; clock := clock w; log := log w |}.

Definition set_clock (x : N) (w : World) : World :=
  {| soundLibrary := soundLibrary w; loops := loops w; initialized := initialized w;
     mgr_queue := mgr_queue w; sequences := sequences w; voices := voices w;
     next_node := next_node w; pending := pending w; clock := x; log := log w |}.

Definition set_log (x : list (N * Event)) (w : World) : World :=
  {| soundLibrary := soundLibrary w; loops := loops w; initialized := initialized w;
     mgr_queue := mgr_queue w; sequences := sequences w; voices := voices w;
     next_node := next_node w; pending := pending w; clock := clock w; log := x |}.

(* --------------------------------------------------------------------- *)
(* 5. State and exceptions                                                *)
(* --------------------------------------------------------------------- *)

Inductive JsError :=
| Error (msg : jsstring)       (* throw Error(msg) *)
| TypeError (msg : jsstring).  (* raised by the language or the platform *)

Inductive Outcome (A : Type) :=
| Return (a : A) (w : World)
| Throw (e : JsError) (w : World).
Arguments Return {A} a w.
Arguments Throw {A} e w.

Definition world_of {A} (o : Outcome A) : World :=
  match o with Return _ w => w | Throw _ w => w end.

Definition M (A : Type) : Type := World -> Outcome A.

Definition ret {A} (a : A) : M A := fun w => Return a w.
Definition throw {A} (e : JsError) : M A := fun w => Throw e w.
Definition bind {A B} (m : M A) (k : A -> M B) : M B :=
  fun w => match m w with
           | Return a w' => k a w'
           | Throw e w' => Throw e w'
           end.
Definition gets {A} (f : World -> A) : M A := fun w => Return (f w) w.
Definition modify (f : World -> World) : M unit := fun w => Return tt (f w).

Notation "'let!' x ':=' m 'in' k" := (bind m (fun x => k))
  (at level 10, x name, m at level 100, k at level 200).
Notation "m >> k" := (bind m (fun _ => k))
  (at level 90, right associativity).

(* Every platform call is stamped with the time it happens at. *)
Definition emit (e : Event) : M unit :=
  modify (fun w => set_log ((clock w, e) :: log w) w).

Definition add_pending (p : Pending) : M unit :=
  modify (fun w => set_pending (pending w ++ [p]) w).

Definition fresh_node : M nat :=
  fun w => Return (next_node w) (set_next_node (S (next_node w)) w).

Definition deref (q : nat) : M AudioSequence :=
  fun w => match sequences w !! q with
           | Some s => Return s w
           | None => Throw (TypeError (js "undefined")) w
           end.

Definition store (q : nat) (s : AudioSequence) : M unit :=
  modify (fun w => set_sequences (<[q := s]> (sequences w)) w).

(* --------------------------------------------------------------------- *)
(* 6. AudioManager                                                        *)
(* --------------------------------------------------------------------- *)

(* this.soundLibrary is an object literal, so it inherits the members
   of Object.prototype, and [name in this.soundLibrary] sees them. *)
Definition Object_prototype_keys : list jsstring :=
  [ js "constructor"; js "__defineGetter__"; js "__defineSetter__";
    js "hasOwnProperty"; js "__lookupGetter__"; js "__lookupSetter__";
    js "isPrototypeOf"; js "propertyIsEnumerable"; js "toString";
    js "valueOf"; js "__proto__"; js "toLocaleString" ].

(* name in this.soundLibrary *)
Definition has_property (lib : gmap jsstring AudioBuffer) (name : jsstring) : bool :=
  bool_decide (is_Some (lib !! name)) || bool_decide (name ∈ Object_prototype_keys).


(* The registry write that ends addSound: this.soundLibrary[name] =
   audioBuffer.  Under the name __proto__ the assignment would replace
   the object's prototype instead of creating a property; that call is
   outside this model and is skipped. *)
Definition addSound_done (name : jsstring) (buf : AudioBuffer) : M unit :=
  if bool_decide (name = js "__proto__") then ret tt
  else modify (fun w => set_soundLibrary (<[name := buf]> (soundLibrary w)) w).

(* this.context.createBufferSource() *)
Definition createBufferSource : M nat :=
  let! n := fresh_node in emit (CreateBufferSource n) >> ret n.

(* new GainNode(this.context, { gain: volume }) *)
Definition new_GainNode (gain : Q) : M nat :=
  let! n := fresh_node in emit (CreateGain n gain) >> ret n.

(* new StereoPannerNode(this.context, { pan: panValue }) *)
Definition new_StereoPannerNode (pan : Q) : M nat :=
  let! n := fresh_node in emit (CreatePanner n pan) >> ret n.

(* play(name, { callback, volume, panValue, loop, offset }).  Numbers
   are rationals, and the Web Audio constructors and start() are taken to
   accept them: the platform's refusal of a non-finite parameter or of a
   negative start time is outside this model.  Its refusal of a buffer
   that is no AudioBuffer is inside it, because the guard of play lets
   such values through. *)
Definition play (name : jsstring) (o : PlayOptions) : M nat :=
  let! lib := gets soundLibrary in
  if negb (has_property lib name) then
    throw (Error (js "Sound " ++ name ++ js " not found"))
  else
    let! sampleSource := createBufferSource in
    match lib !! name with
    | None =>
        (* sampleSource.buffer = <member of Object.prototype> : the
           platform setter refuses what is not an AudioBuffer *)
        throw (TypeError (js "The provided value is not of type 'AudioBuffer'"))
    | Some buf =>
        emit (SetBuffer sampleSource buf) >>
        (if o_loop o then
           emit (SetLoop sampleSource) >>
           modify (fun w => set_loops (loops w ++
             [{| soundName := name; loopHandle := sampleSource;
                 loop_isPlaying := true |}]) w)
         else ret tt) >>
        (match o_callback o with
         | Some cb => add_pending (OnEnded sampleSource cb)
         | None => ret tt
         end) >>
        let! currentNode :=
          (if negb (Qeq_bool (o_volume o) 1) then
             let! volumeNode := new_GainNode (o_volume o) in
             emit (Connect sampleSource (NodeId volumeNode)) >> ret volumeNode
           else ret sampleSource) in
        let! currentNode :=
          (if negb (Qeq_bool (o_panValue o) 0) then
             let! pannerNode := new_StereoPannerNode (o_panValue o) in
             emit (Connect currentNode (NodeId pannerNode)) >> ret pannerNode
           else ret currentNode) in
        emit (Connect currentNode Destination) >>
        emit (Start sampleSource (o_offset o)) >>
        emit (SoundEffectEvent name (o_panValue o) (o_volume o) (o_loop o)) >>
        ret sampleSource
    end.

(* The forEach of stopLoop: stop and un-flag every entry that matches. *)
Fixpoint stopLoop_forEach (name : jsstring) (items : list LoopEntry) : M (list LoopEntry) :=
  match items with
  | [] => ret []
  | it :: rest =>
      let! it' :=
        (if bool_decide (soundName it = name) && loop_isPlaying it then
           emit (Stop (loopHandle it)) >>
           ret {| soundName := soundName it; loopHandle := loopHandle it;
                  loop_isPlaying := false |}
         else ret it) in
      let! rest' := stopLoop_forEach name rest in
      ret (it' :: rest')
  end.

(* stopLoop(name) *)
Definition stopLoop (name : jsstring) : M unit :=
  let! items := gets loops in
  let! marked := stopLoop_forEach name items in
  modify (set_loops (filter (fun it => loop_isPlaying it = true) marked)).

(* speak(text, { callback, voicePreference, speechRate }) *)
Definition speak (text : jsstring) (o : SpeakOptions) : M unit :=
  (match s_callback o with
   | Some cb => add_pending (OnEnd cb)
   | None => ret tt
   end) >>
  let! vs := gets voices in
  let voice :=
    match s_voicePreference o with
    | Some v => List.find (fun name => bool_decide (name = v)) vs
    | None => None
    end in
  emit (SpeechSpeak text (s_speechRate o) voice) >>
  emit (SpeakEvent text).

(* --------------------------------------------------------------------- *)
(* 7. AudioSequence                                                       *)
(* --------------------------------------------------------------------- *)

(* doNext() of the sequence at heap index q.  The class defines no
   method named shutdown, so the call in the else branch is a call of
   undefined. *)
Definition doNext (q : nat) : M unit :=
  let! this := deref q in
  if hasNext this && truthy (isPlaying this) then
    match queue this with
    | firstItem :: rest =>
        store q (set_queue rest this) >>
        emit (ConsoleLog q firstItem) >>
        if bool_decide (mediaType firstItem = TEXT) then
          match prefs firstItem with
          | Some p =>
              speak (item firstItem)
                {| s_callback := Some (SeqCallback q);
                   s_voicePreference := voicePreference p;
                   s_speechRate := (3 # 2)%Q |}
          | None => throw (TypeError (js "firstItem.prefs is undefined"))
          end
        else if bool_decide (mediaType firstItem = SOUND) then
          play (item firstItem)
            {| o_callback := Some (SeqCallback q); o_volume := 1%Q;
               o_panValue := 0%Q; o_loop := false; o_offset := 0%Q |} >>
          ret tt
        else throw (Error (js "invalid media type"))
    | [] => ret tt   (* not reached: hasNext() was true *)
    end
  else throw (TypeError (js "this.shutdown is not a function")).

(* start() *)
Definition start (q : nat) : M unit :=
  let! this := deref q in
  store q {| queue := queue this; spacing := spacing this;
             playing := playing this; isPlaying := Some true;
             currentItem := currentItem this |} >>
  doNext q.

(* callback() : run when the most recent speech or sound is done.
   sleep(ms) is a promise resolved by setTimeout(resolve, ms); its
   continuation, doNext, is held by the platform until the timer is due. *)
Definition callback (q : nat) : M unit :=
  emit (CallbackEntered q) >>
  let! this := deref q in
  if negb (hasNext this) then store q (cancel this)
  else
    let! now := gets clock in
    add_pending (Timeout (now + spacing this)%N q).

(* speakWithSoundEffects(formattedText, { voicePreference }) *)
Definition speakWithSoundEffects (formattedText : jsstring)
    (vp : option jsstring) : M nat :=
  let! q := gets (fun w => length (sequences w)) in
  modify (fun w => set_sequences (sequences w ++ [parse formattedText vp]) w) >>
  start q >>
  modify (set_mgr_queue (Some q)) >>
  ret q.

(* --------------------------------------------------------------------- *)
(* 8. What can happen to a world                                          *)
(* --------------------------------------------------------------------- *)

(* Calls made by the game script and the page set-up code, and the
   platform's own moves.  A callback the game passes to play or speak is
   opaque: whatever it does to the manager shows up as further moves. *)
Inductive Label :=
| LAddSound (name : jsstring) (buf : AudioBuffer)
| LPlay (name : jsstring) (k : option nat) (volume panValue : Q)
        (loop : bool) (offset : Q)
| LStopLoop (name : jsstring)
| LSpeak (text : jsstring) (k : option nat) (vp : option jsstring) (rate : Q)
| LSpeakWithSoundEffects (formattedText : jsstring) (vp : option jsstring)
| LCancel (q : nat)          (* sequence.cancel(), as setup.js does on AudioManager.queue *)
| LFire (i : nat)            (* the platform invokes the i-th handler it holds *)
| LTick (d : N).             (* d milliseconds pass *)

#[global] Instance Q_eq_dec : EqDecision Q.
Proof. solve_decision. Defined.

#[global] Instance Label_eq_dec : EqDecision Label.
Proof. solve_decision. Defined.

Definition remove_pending (i : nat) : M unit :=
  modify (fun w => set_pending (delete i (pending w)) w).

Definition run_callback (cb : Callback) : M unit :=
  match cb with
  | SeqCallback q => callback q
  | GameCallback _ => ret tt
  end.

(* A media handler fires once, when its speech or sound has ended; a
   timer fires once, not before it is due. *)
Definition fire (i : nat) : M unit :=
  let! ps := gets pending in
  match ps !! i with
  | Some (OnEnded _ cb) => remove_pending i >> run_callback cb
  | Some (OnEnd cb) => remove_pending i >> run_callback cb
  | Some (Timeout due q) =>
      let! now := gets clock in
      if (due <=? now)%N then remove_pending i >> doNext q else ret tt
  | None => ret tt
  end.

Definition run (l : Label) : M unit :=
  match l with
  | LAddSound name buf => addSound_done name buf
  | LPlay name k volume panValue loop offset =>
      play name {| o_callback := GameCallback <$> k; o_volume := volume;
                   o_panValue := panValue; o_loop := loop; o_offset := offset |} >>
      ret tt
  | LStopLoop name => stopLoop name
  | LSpeak text k vp rate =>
      speak text {| s_callback := GameCallback <$> k; s_voicePreference := vp;
                    s_speechRate := rate |}
  | LSpeakWithSoundEffects formattedText vp =>
      speakWithSoundEffects formattedText vp >> ret tt
  | LCancel q =>
      let! ss := gets sequences in
      match ss !! q with
      | Some this => store q (cancel this)
      | None => ret tt
      end
  | LFire i => fire i
  | LTick d => modify (fun w => set_clock (clock w + d)%N w)
  end.

(* The world after a move, whether it returned or threw. *)
Definition exec (l : Label) (w : World) : World := world_of (run l w).

Definition execs (ls : list Label) (w : World) : World := fold_left (fun w l => exec l w) ls w.

Definition reachable (w : World) : Prop :=
  exists vs ls, w = execs ls (new_AudioManager vs).

(* --------------------------------------------------------------------- *)
(* 9. Vocabulary of the properties                                        *)
(* --------------------------------------------------------------------- *)

Definition text_item (vp : option jsstring) (content : jsstring) : QueueItem :=
  {| item := content; mediaType := TEXT; prefs := Some {| voicePreference := vp |} |}.

Definition sound_item (name : jsstring) : QueueItem :=
  {| item := name; mediaType := SOUND; prefs := None |}.

Definition is_text (it : QueueItem) : bool := bool_decide (mediaType it = TEXT).
Definition is_sound (it : QueueItem) : bool := bool_decide (mediaType it = SOUND).



(* What the parser loop leaves in the queue, as a function of the tokens
   still to read and the phrase buffer. *)
Definition flush (vp : option jsstring) (buffer : jsstring) : list QueueItem :=
  if 0 <? length buffer then [text_item vp buffer] else [].

Fixpoint cues (vp : option jsstring) (tokens : list jsstring) (buffer : jsstring)
    : list QueueItem :=
  match tokens with
  | [] => flush vp buffer
  | tok :: rest =>
      match cue_match tok with
      | Some soundName => flush vp buffer ++ sound_item soundName :: cues vp rest []
      | None => cues vp rest (buffer ++ [SPACE] ++ tok)
      end
  end.

(* The active-loop registry. *)
Definition live (it : LoopEntry) : Prop := loop_isPlaying it = true.

(* item.soundName == name && item.isPlaying *)
Definition matches (name : jsstring) (it : LoopEntry) : Prop :=
  soundName it = name /\ loop_isPlaying it = true.

(* What the forEach of stopLoop makes of one entry. *)
Definition unflag (name : jsstring) (it : LoopEntry) : LoopEntry :=
  if bool_decide (soundName it = name) && loop_isPlaying it
  then {| soundName := soundName it; loopHandle := loopHandle it;
          loop_isPlaying := false |}
  else it.

Definition stops (lg : list (N * Event)) : list nat :=
  rev (omap (fun te => match te.2 with Stop n => Some n | _ => None end) lg).





Definition sound_effects (lg : list (N * Event)) : list jsstring :=
  rev (omap (fun te => match te.2 with SoundEffectEvent n _ _ _ => Some n | _ => None end) lg).



(* What one sequence does, as seen in the log. *)
Inductive SeqEv :=
| Dispatched (it : QueueItem)   (* doNext took the item and handed it to speak or play *)
| Completed.                    (* the completion callback of the item in flight ran *)

Definition seq_event (q : nat) (e : Event) : option SeqEv :=
  match e with
  | ConsoleLog q' it => if decide (q' = q) then Some (Dispatched it) else None
  | CallbackEntered q' => if decide (q' = q) then Some Completed else None
  | _ => None
  end.

(* most recent first, like the log *)
Definition seq_events (q : nat) (lg : list (N * Event)) : list (N * SeqEv) :=
  omap (fun te => (fun se => (te.1, se)) <$> seq_event q te.2) lg.

(* The items sequence q has dispatched so far, oldest first. *)
Definition dispatched (q : nat) (lg : list (N * Event)) : list QueueItem :=
  rev (omap (fun tse => match tse.2 with Dispatched it => Some it | Completed => None end)
            (seq_events q lg)).

(* The items sequence q still holds in its queue. *)
Definition remaining (q : nat) (w : World) : list QueueItem :=
  match sequences w !! q with
  | Some s => queue s
  | None => []
  end.

(* Dispatched so far, then still to come. *)
Definition script (q : nat) (w : World) : list QueueItem :=
  dispatched q (log w) ++ remaining q w.

(* Which sequence a handler held by the platform belongs to. *)
Definition owner (p : Pending) : option nat :=
  match p with
  | OnEnded _ (SeqCallback q) => Some q
  | OnEnd (SeqCallback q) => Some q
  | Timeout _ q => Some q
  | _ => None
  end.

Definition owned (q : nat) (ps : list Pending) : list Pending :=
  filter (fun p => owner p = Some q) ps.

(* A sequence's events alternate, beginning with a dispatch: every
   completion follows the dispatch of its item, and every further
   dispatch comes at least [sp] milliseconds after the completion before
   it.  (most recent first) *)
Fixpoint well_spaced (sp : N) (evs : list (N * SeqEv)) : bool :=
  match evs with
  | [] => true
  | (t2, e2) :: rest =>
      match e2, rest with
      | Dispatched _, [] => true
      | Dispatched _, (t1, Completed) :: _ => (t1 + sp <=? t2)%N && well_spaced sp rest
      | Completed, (t1, Dispatched _) :: _ => (t1 <=? t2)%N && well_spaced sp rest
      | _, _ => false
      end
  end.

(* --------------------------------------------------------------------- *)
(* 10. The invariant of reachable worlds                                  *)
(* --------------------------------------------------------------------- *)

(* One sequence, seen through the handlers it has with the platform and
   its events: it waits for at most one thing at a time, a media handler
   only right after a dispatch, a timer only right after a completion
   and due one spacing later. *)
Definition seq_inv (sp : N) (own : list Pending) (evs : list (N * SeqEv)) : Prop :=
  well_spaced sp evs = true /\
  match own with
  | [] => True
  | [Timeout due _] => exists t rest, evs = (t, Completed) :: rest /\ due = (t + sp)%N
  | [_] => exists t it rest, evs = (t, Dispatched it) :: rest
  | _ => False
  end.

Definition pending_valid (w : World) : Prop :=
  forall p q, p ∈ pending w -> owner p = Some q -> q < length (sequences w).

Definition log_past (w : World) : Prop :=
  forall te, te ∈ log w -> (te.1 <= clock w)%N.

Definition log_valid (w : World) : Prop :=
  forall q, length (sequences w) <= q -> seq_events q (log w) = [].

Definition seqs_ok (w : World) : Prop :=
  forall q s, sequences w !! q = Some s ->
    spacing s = 100%N /\ seq_inv 100 (owned q (pending w)) (seq_events q (log w)).

Definition wf (w : World) : Prop :=
  Forall live (loops w) /\ pending_valid w /\ log_past w /\ log_valid w /\ seqs_ok w.

(* --------------------------------------------------------------------- *)
(* 11. Worlds used as examples                                            *)
(* --------------------------------------------------------------------- *)

(* One sound loaded. *)
Definition win_world : World :=
  execs [LAddSound (js "win") 7] (new_AudioManager []).

(* A narration under way: the first phrase is being spoken, the sound
   and the second phrase wait in the queue of sequence 0. *)
Definition narration_world : World :=
  execs [LSpeakWithSoundEffects (js "You win {{win}} great job") None] win_world.

(* The first phrase has ended: sequence 0 sleeps in its spacing delay. *)
Definition gap_world : World := exec (LFire 0) narration_world.



(* --------------------------------------------------------------------- *)
(* 12. Proof automation                                                   *)
(* --------------------------------------------------------------------- *)

(* Open the monadic operations. *)
Ltac unfold_m :=
  unfold play, speak, stopLoop, createBufferSource, new_GainNode,
    new_StereoPannerNode, fresh_node, add_pending, emit, store, deref,
    remove_pending, gets, modify, bind, ret, throw in *.

(* An entry of a log extended by explicit calls is old or stamped now. *)
Ltac log_cases H :=
  repeat (apply elem_of_cons in H as [-> | H]; [right; reflexivity|]);
  left; exact H.

(* Reduce projections of updated worlds, and nothing else. *)
Ltac fields :=
  cbn [pending log sequences clock loops soundLibrary mgr_queue next_node voices
       set_pending set_log set_sequences set_loops set_mgr_queue set_clock
       set_soundLibrary set_next_node world_of].

(* ===================================================================== *)
(* Theorems                                                               *)
(* ===================================================================== *)

(* ----- the parser ----- *)

Example split_space_double : split_space (js "a  b") = [js "a"; js ""; js "b"].
Proof. reflexivity. Qed.

Example cue_match_whole : cue_match (js "{{thunder}}") = Some (js "thunder").
Proof. reflexivity. Qed.

Example cue_match_embedded : cue_match (js "a{{b}}c") = Some (js "b").
Proof. reflexivity. Qed.

Example cue_match_greedy : cue_match (js "{{a}}{{b}}") = Some (js "a}}{{b").
Proof. reflexivity. Qed.

Example cue_match_unclosed : cue_match (js "{{name") = None.
Proof. reflexivity. Qed.

Example parse_hello_thunder :
  queue (parse (js "Hello {{thunder}} world") None)
  = [text_item None (js " Hello"); sound_item (js "thunder");
     text_item None (js " world")].
Proof. reflexivity. Qed.

Lemma parse_loop_cues vp tokens buffer q :
  let '(buffer', q') := parse_loop vp tokens (buffer, q) in
  queue q' ++ flush vp buffer' = queue q ++ cues vp tokens buffer
  /\ spacing q' = spacing q /\ isPlaying q' = isPlaying q
  /\ playing q' = playing q /\ currentItem q' = currentItem q.
Proof.
  revert buffer q. induction tokens as [|tok rest IH]; intros buffer q; simpl.
  - done.
  - unfold parse_token. destruct (cue_match tok) as [name|].
    + unfold flush at 2. destruct (0 <? length buffer) eqn:Hb.
      * specialize (IH [] (add name SOUND None (add buffer TEXT (Some {| voicePreference := vp |}) q))).
        destruct (parse_loop vp rest _) as [b' q'].
        destruct IH as (IH & ? & ? & ? & ?). simpl in *.
        rewrite IH. rewrite <- !app_assoc. simpl. done.
      * specialize (IH buffer (add name SOUND None q)).
        destruct (parse_loop vp rest _) as [b' q'].
        destruct IH as (IH & ? & ? & ? & ?). simpl in *.
        rewrite IH. rewrite <- !app_assoc. simpl.
        assert (buffer = []) as -> by (destruct buffer; [done | simpl in Hb; discriminate]).
        done.
    + apply IH.
Qed.

Lemma parse_queue t vp : queue (parse t vp) = cues vp (split_space t) [].
Proof.
  unfold parse.
  pose proof (parse_loop_cues vp (split_space t) [] (new_AudioSequence 100)) as H.
  destruct (parse_loop vp (split_space t) _) as [b' q'].
  destruct H as (H & _). simpl in H. rewrite <- H. unfold flush.
  destruct (0 <? length b'); simpl; [done | by rewrite app_nil_r].
Qed.

Lemma is_sound_text_item vp b : is_sound (text_item vp b) = false.
Proof. reflexivity. Qed.











(* ----- frames ----- *)

Lemma has_property_own lib name buf :
  lib !! name = Some buf -> has_property lib name = true.
Proof. intros H. unfold has_property. rewrite bool_decide_eq_true_2; [done | eauto]. Qed.

Lemma play_frame name o w :
  let r := play name o w in
  let w' := world_of r in
  soundLibrary w' = soundLibrary w /\ mgr_queue w' = mgr_queue w
  /\ sequences w' = sequences w /\ voices w' = voices w /\ clock w' = clock w
  /\ loops w' = loops w ++
       match r with
       | Return n _ =>
           if o_loop o
           then [{| soundName := name; loopHandle := n; loop_isPlaying := true |}]
           else []
       | Throw _ _ => []
       end
  /\ pending w' = pending w ++
       match r, o_callback o with
       | Return n _, Some cb => [OnEnded n cb]
       | _, _ => []
       end
  /\ (forall q, seq_events q (log w') = seq_events q (log w))
  /\ stops (log w') = stops (log w)
  /\ (forall te, te ∈ log w' -> te ∈ log w \/ te.1 = clock w).
Proof.
  unfold_m. cbn.
  destruct (has_property (soundLibrary w) name); cbn.
  2:{ rewrite !app_nil_r. repeat split; auto. }
  destruct (soundLibrary w !! name) as [buf|]; cbn.
  2:{ rewrite !app_nil_r. repeat split; auto. intros te H. log_cases H. }
  destruct (o_loop o), (o_callback o) as [cb|],
    (Qeq_bool (o_volume o) 1), (Qeq_bool (o_panValue o) 0); cbn;
    rewrite ?app_nil_r; (repeat split; auto; intros te H; log_cases H).
Qed.

Lemma speak_frame text o w :
  exists w', speak text o w = Return tt w'
  /\ soundLibrary w' = soundLibrary w /\ mgr_queue w' = mgr_queue w
  /\ sequences w' = sequences w /\ voices w' = voices w /\ clock w' = clock w
  /\ loops w' = loops w
  /\ pending w' = pending w ++
       match s_callback o with Some cb => [OnEnd cb] | None => [] end
  /\ (forall q, seq_events q (log w') = seq_events q (log w))
  /\ stops (log w') = stops (log w)
  /\ (forall te, te ∈ log w' -> te ∈ log w \/ te.1 = clock w).
Proof.
  unfold_m. destruct (s_callback o) as [cb|]; cbn; eexists; (split; [reflexivity|]);
    cbn; rewrite ?app_nil_r; (repeat split; auto; intros te H; log_cases H).
Qed.

(* ----- the loop registry ----- *)

Lemma set_log_id w : set_log (log w) w = w.
Proof. by destruct w. Qed.


Lemma stopLoop_forEach_spec name items w :
  stopLoop_forEach name items w
  = Return (unflag name <$> items)
      (set_log (((fun it => (clock w, Stop (loopHandle it))) <$>
                 rev (filter (matches name) items)) ++ log w) w).
Proof.
  revert w. induction items as [|it rest IH]; intros w.
  - cbn. by rewrite set_log_id.
  - cbn [stopLoop_forEach]. unfold bind at 1. rewrite fmap_cons.
    unfold unflag at 1.
    destruct (bool_decide (soundName it = name) && loop_isPlaying it) eqn:E.
    + apply andb_true_iff in E as [E1%bool_decide_eq_true E2].
      rewrite filter_cons_True by done.
      unfold emit, modify, bind, ret. unfold bind in IH. rewrite IH. cbn.
      rewrite fmap_app, <- app_assoc. reflexivity.
    + rewrite filter_cons_False.
      2:{ intros [H1 H2]. rewrite bool_decide_eq_true_2, H2 in E; done. }
      unfold ret at 1. unfold bind. rewrite IH. reflexivity.
Qed.

Lemma stopLoop_spec name w :
  stopLoop name w
  = Return tt
      (set_loops (filter live (unflag name <$> loops w))
         (set_log (((fun it => (clock w, Stop (loopHandle it))) <$>
                    rev (filter (matches name) (loops w))) ++ log w) w)).
Proof.
  unfold stopLoop, gets, modify, bind. rewrite stopLoop_forEach_spec. reflexivity.
Qed.








(* ----- views ----- *)

Lemma owned_app q ps1 ps2 : owned q (ps1 ++ ps2) = owned q ps1 ++ owned q ps2.
Proof. apply filter_app. Qed.

Lemma owned_elem q p ps : p ∈ owned q ps <-> owner p = Some q /\ p ∈ ps.
Proof. unfold owned. by rewrite list_elem_of_filter. Qed.

Lemma owned_cons_other q p ps : owner p ≠ Some q -> owned q (p :: ps) = owned q ps.
Proof. intros H. unfold owned. by rewrite filter_cons_False. Qed.

Lemma owned_cons_own q p ps : owner p = Some q -> owned q (p :: ps) = p :: owned q ps.
Proof. intros H. unfold owned. by rewrite filter_cons_True. Qed.

Lemma owned_delete_other q i p ps :
  ps !! i = Some p -> owner p ≠ Some q -> owned q (delete i ps) = owned q ps.
Proof.
  intros Hi Hne. rewrite <- (take_drop_middle ps i p Hi) at 2.
  rewrite delete_take_drop, !owned_app. f_equal. by rewrite owned_cons_other.
Qed.

Lemma owned_delete_own q i p ps :
  ps !! i = Some p -> owner p = Some q -> length (owned q ps) <= 1 ->
  owned q ps = [p] /\ owned q (delete i ps) = [].
Proof.
  intros Hi Ho Hlen. rewrite delete_take_drop, owned_app.
  rewrite <- (take_drop_middle ps i p Hi) in Hlen |- * at 1.
  rewrite owned_app, owned_cons_own in * by done.
  rewrite length_app in Hlen. cbn in Hlen.
  destruct (owned q (take i ps)); [|cbn in Hlen; lia].
  destruct (owned q (drop (S i) ps)); [|cbn in Hlen; lia].
  done.
Qed.

Lemma seq_inv_owned_length sp own evs : seq_inv sp own evs -> length own <= 1.
Proof.
  intros [_ H]. destruct own as [|p [|p' own]]; cbn; try lia. by destruct p.
Qed.

Lemma seq_events_cons q t e lg :
  seq_events q ((t, e) :: lg)
  = match seq_event q e with Some se => [(t, se)] | None => [] end ++ seq_events q lg.
Proof. unfold seq_events. cbn. by destruct (seq_event q e). Qed.

Lemma seq_events_time q t se lg :
  (t, se) ∈ seq_events q lg -> exists e, (t, e) ∈ lg.
Proof.
  unfold seq_events. intros [[t' e] [Hin H]]%list_elem_of_omap.
  cbn in H. destruct (seq_event q e); [|done]. injection H as -> _.
  eauto.
Qed.

Lemma seq_events_bound q w t se :
  log_past w -> (t, se) ∈ seq_events q (log w) -> (t <= clock w)%N.
Proof. intros Hp [e He]%seq_events_time. apply (Hp _ He). Qed.

Lemma wf_quiet w w' :
  wf w ->
  Forall live (loops w') ->
  length (sequences w) <= length (sequences w') ->
  (forall q s', sequences w' !! q = Some s' ->
     exists s, sequences w !! q = Some s /\ spacing s' = spacing s) ->
  (forall q, owned q (pending w') = owned q (pending w)) ->
  (forall q, seq_events q (log w') = seq_events q (log w)) ->
  (forall te, te ∈ log w' -> te ∈ log w \/ (te.1 <= clock w')%N) ->
  (clock w <= clock w')%N ->
  wf w'.
Proof.
  intros (Hl & Hpv & Hlp & Hlv & Hs) Hl' Hlen Hseq Hown Hev Hlog Hclk.
  split; [done|]. split; [|split; [|split]].
  - intros p q Hin Ho.
    assert (p ∈ owned q (pending w')) as H by by apply owned_elem.
    rewrite Hown in H. apply owned_elem in H as [_ H].
    specialize (Hpv p q H Ho). lia.
  - intros te Hin. destruct (Hlog te Hin) as [H|H]; [|done].
    specialize (Hlp te H). lia.
  - intros q Hq. rewrite Hev. apply Hlv. lia.
  - intros q s' Hq. destruct (Hseq q s' Hq) as (s & Hs0 & Hsp).
    rewrite Hsp, Hown, Hev. by apply Hs.
Qed.

Lemma wf_step w w' q :
  wf w ->
  Forall live (loops w') ->
  length (sequences w) <= length (sequences w') ->
  (forall q' s', q' ≠ q -> sequences w' !! q' = Some s' ->
     exists s, sequences w !! q' = Some s /\ spacing s' = spacing s) ->
  (forall q', q' ≠ q -> owned q' (pending w') = owned q' (pending w)) ->
  (forall q', q' ≠ q -> seq_events q' (log w') = seq_events q' (log w)) ->
  (forall te, te ∈ log w' -> te ∈ log w \/ (te.1 <= clock w')%N) ->
  (clock w <= clock w')%N ->
  q < length (sequences w') ->
  (forall s', sequences w' !! q = Some s' ->
     spacing s' = 100%N /\ seq_inv 100 (owned q (pending w')) (seq_events q (log w'))) ->
  wf w'.
Proof.
  intros (Hl & Hpv & Hlp & Hlv & Hs) Hl' Hlen Hseq Hown Hev Hlog Hclk Hq Hinv.
  split; [done|]. split; [|split; [|split]].
  - intros p q' Hin Ho. destruct (decide (q' = q)) as [->|Hne]; [done|].
    assert (p ∈ owned q' (pending w')) as H by by apply owned_elem.
    rewrite Hown in H by done. apply owned_elem in H as [_ H].
    specialize (Hpv p q' H Ho). lia.
  - intros te Hin. destruct (Hlog te Hin) as [H|H]; [|done].
    specialize (Hlp te H). lia.
  - intros q' Hq'. rewrite Hev by lia. apply Hlv. lia.
  - intros q' s' Hq'. destruct (decide (q' = q)) as [->|Hne]; [by apply Hinv|].
    destruct (Hseq q' s' Hne Hq') as (s & Hs0 & Hsp).
    rewrite Hsp, Hown, Hev by done. by apply Hs.
Qed.

(* ----- the methods of a sequence ----- *)

Lemma callback_spec q w s :
  sequences w !! q = Some s ->
  callback q w
  = Return tt
      (if hasNext s
       then set_pending (pending w ++ [Timeout (clock w + spacing s) q])
              (set_log ((clock w, CallbackEntered q) :: log w) w)
       else set_sequences (<[q := cancel s]> (sequences w))
              (set_log ((clock w, CallbackEntered q) :: log w) w)).
Proof.
  intros Hs. unfold callback, hasNext. unfold_m. cbn. rewrite Hs.
  by destruct (length (queue s)).
Qed.

Lemma doNext_idle q w s :
  sequences w !! q = Some s ->
  hasNext s && truthy (isPlaying s) = false ->
  doNext q w = Throw (TypeError (js "this.shutdown is not a function")) w.
Proof.
  intros Hs H. unfold doNext. unfold bind at 1. unfold deref. by rewrite Hs, H.
Qed.

Lemma doNext_unfold q w s first rest :
  sequences w !! q = Some s ->
  queue s = first :: rest ->
  truthy (isPlaying s) = true ->
  doNext q w
  = (if bool_decide (mediaType first = TEXT) then
       match prefs first with
       | Some p =>
           speak (item first)
             {| s_callback := Some (SeqCallback q);
                s_voicePreference := voicePreference p;
                s_speechRate := (3 # 2)%Q |}
       | None => throw (TypeError (js "firstItem.prefs is undefined"))
       end
     else if bool_decide (mediaType first = SOUND) then
       play (item first)
         {| o_callback := Some (SeqCallback q); o_volume := 1%Q;
            o_panValue := 0%Q; o_loop := false; o_offset := 0%Q |} >>
       ret tt
     else throw (Error (js "invalid media type")))
      (set_log ((clock w, ConsoleLog q first) :: log w)
         (set_sequences (<[q := set_queue rest s]> (sequences w)) w)).
Proof.
  intros Hs Hq Hp. unfold doNext. unfold bind at 1. unfold deref. rewrite Hs.
  unfold hasNext. rewrite Hq, Hp. reflexivity.
Qed.

Lemma play_returns_next name o w n w' :
  play name o w = Return n w' -> n = next_node w.
Proof.
  unfold play. unfold_m. cbn.
  destruct (has_property _ _); [|done]. cbn.
  destruct (soundLibrary w !! name); [|done]. cbn.
  destruct (o_loop o), (o_callback o), (Qeq_bool (o_volume o) 1),
    (Qeq_bool (o_panValue o) 0); cbn; by intros [= <- _].
Qed.

Lemma doNext_dispatch q w s first rest :
  sequences w !! q = Some s ->
  queue s = first :: rest ->
  truthy (isPlaying s) = true ->
  let r := doNext q w in
  let w' := world_of r in
  sequences w' = <[q := set_queue rest s]> (sequences w)
  /\ clock w' = clock w /\ soundLibrary w' = soundLibrary w
  /\ mgr_queue w' = mgr_queue w /\ loops w' = loops w
  /\ pending w' = pending w ++
       match r with
       | Return _ _ =>
           [if is_text first then OnEnd (SeqCallback q)
            else OnEnded (next_node w) (SeqCallback q)]
       | Throw _ _ => []
       end
  /\ (forall q', seq_events q' (log w')
                 = (if decide (q = q') then [(clock w, Dispatched first)] else [])
                   ++ seq_events q' (log w))
  /\ stops (log w') = stops (log w)
  /\ (forall te, te ∈ log w' -> te ∈ log w \/ te.1 = clock w).
Proof.
  intros Hs Hq Hp r w'. subst w' r. rewrite (doNext_unfold q w s first rest) by done.
  set (w1 := set_log _ _).
  assert (Hev1 : forall q', seq_events q' (log w1)
             = (if decide (q = q') then [(clock w, Dispatched first)] else [])
               ++ seq_events q' (log w)).
  { intros q'. subst w1. cbn [log set_log set_sequences clock].
    rewrite seq_events_cons. cbn [seq_event]. by destruct (decide (q = q')). }
  assert (Hlog1 : forall te, te ∈ log w1 -> te ∈ log w \/ te.1 = clock w).
  { intros te H. subst w1. cbn in H. log_cases H. }
  assert (Hst1 : stops (log w1) = stops (log w)) by done.
  unfold is_text.
  destruct (bool_decide (mediaType first = TEXT)).
  - destruct (prefs first) as [p|].
    + destruct (speak_frame (item first)
        {| s_callback := Some (SeqCallback q);
           s_voicePreference := voicePreference p; s_speechRate := 3 # 2 |} w1)
        as (w' & -> & ? & ? & ? & ? & ? & ? & Hpend & Hev & Hst & Hlg).
      cbn [world_of]. split_and!;
        first [ done | congruence | intros q'; by rewrite Hev
              | intros te H'; destruct (Hlg te H'); auto ].
    + cbn. rewrite app_nil_r. split_and!; auto.
  - destruct (bool_decide (mediaType first = SOUND)).
    + match goal with |- context [play ?n ?o] =>
        pose proof (play_frame n o w1) as (? & ? & ? & ? & ? & Hloop & Hpend & Hev & Hst & Hlg)
      end.
      unfold bind in *.
      destruct (play (item first) _ w1) as [n w'|e w'] eqn:Hplay;
        cbn [world_of o_loop o_callback ret] in *;
        rewrite ?app_nil_r in *;
        [apply play_returns_next in Hplay; subst n|];
        (split_and!;
          first [ done | congruence | intros q'; by rewrite Hev
                | intros te H'; destruct (Hlg te H'); auto ]).
    + cbn. rewrite app_nil_r. split_and!; auto.
Qed.

(* ----- how one sequence's view moves ----- *)

Lemma seq_inv_drop sp own evs : seq_inv sp own evs -> seq_inv sp [] evs.
Proof. intros [H _]. by split. Qed.

Lemma seq_inv_first sp own now it :
  (own = [] \/ (exists cb, own = [OnEnd cb]) \/ (exists n cb, own = [OnEnded n cb])) ->
  seq_inv sp own [(now, Dispatched it)].
Proof.
  intros H. split; [done|].
  destruct H as [-> | [[cb ->] | (n & cb & ->)]]; eauto.
Qed.

Lemma seq_inv_dispatch sp due q evs own now it :
  seq_inv sp [Timeout due q] evs ->
  (due <= now)%N ->
  (own = [] \/ (exists cb, own = [OnEnd cb]) \/ (exists n cb, own = [OnEnded n cb])) ->
  seq_inv sp own ((now, Dispatched it) :: evs).
Proof.
  intros [Hw (t & rest & -> & ->)] Hdue H. split.
  - change (well_spaced sp ((now, Dispatched it) :: (t, Completed) :: rest))
      with ((t + sp <=? now)%N && well_spaced sp ((t, Completed) :: rest)).
    rewrite Hw. rewrite (proj2 (N.leb_le _ _)); done.
  - destruct H as [-> | [[cb ->] | (n & cb & ->)]]; eauto.
Qed.

Lemma seq_inv_complete sp p q evs own now :
  seq_inv sp [p] evs ->
  (forall due q', p ≠ Timeout due q') ->
  (forall t se, (t, se) ∈ evs -> (t <= now)%N) ->
  (own = [] \/ own = [Timeout (now + sp) q]) ->
  seq_inv sp own ((now, Completed) :: evs).
Proof.
  intros [Hw Hp] Hnt Hpast H.
  assert (exists t it rest, evs = (t, Dispatched it) :: rest) as (t & it & rest & ->).
  { destruct p; try done. by destruct (Hnt due q0). }
  split.
  - change (well_spaced sp ((now, Completed) :: (t, Dispatched it) :: rest))
      with ((t <=? now)%N && well_spaced sp ((t, Dispatched it) :: rest)).
    rewrite Hw. rewrite (proj2 (N.leb_le _ _)); [done|].
    apply (Hpast t (Dispatched it)). left.
  - destruct H as [-> | ->]; eauto.
Qed.

(* ----- the parser never leaves the queue empty ----- *)

Lemma split_space_nonempty s : split_space s ≠ [].
Proof.
  destruct s as [|c s]; [done|]. cbn.
  destruct (c =? SPACE)%N; [done|]. by destruct (split_space s).
Qed.

Lemma flush_nonempty vp buffer : buffer ≠ [] -> flush vp buffer = [text_item vp buffer].
Proof. intros H. unfold flush. by destruct buffer. Qed.

Lemma cues_nonempty vp tokens buffer :
  tokens ≠ [] \/ buffer ≠ [] -> cues vp tokens buffer ≠ [].
Proof.
  revert buffer. induction tokens as [|tok rest IH]; intros buffer H.
  - destruct H as [H|H]; [done|]. cbn. by rewrite flush_nonempty.
  - cbn. destruct (cue_match tok).
    + by destruct (flush vp buffer).
    + apply IH. right. by destruct buffer.
Qed.

Lemma parse_nonempty t vp : queue (parse t vp) ≠ [].
Proof.
  rewrite parse_queue. apply cues_nonempty. left. apply split_space_nonempty.
Qed.

Lemma parse_fields t vp :
  spacing (parse t vp) = 100%N /\ isPlaying (parse t vp) = None
  /\ playing (parse t vp) = false /\ currentItem (parse t vp) = None.
Proof.
  unfold parse.
  pose proof (parse_loop_cues vp (split_space t) [] (new_AudioSequence 100)) as H.
  destruct (parse_loop vp (split_space t) _) as [b' q'].
  destruct H as (_ & ? & ? & ? & ?). by destruct (0 <? length b').
Qed.


(* ----- speakWithSoundEffects, unfolded ----- *)

Lemma speakWithSoundEffects_unfold text vp w :
  speakWithSoundEffects text vp w
  = match doNext (length (sequences w))
            (set_sequences (sequences w ++
               [{| queue := queue (parse text vp); spacing := 100%N;
                   playing := false; isPlaying := Some true;
                   currentItem := None |}]) w) with
    | Return _ w3 => Return (length (sequences w)) (set_mgr_queue (Some (length (sequences w))) w3)
    | Throw e w3 => Throw e w3
    end.
Proof.
  destruct (parse_fields text vp) as (Hsp & Hip & Hpl & Hci).
  unfold speakWithSoundEffects, start. unfold_m. cbn.
  rewrite lookup_app_r by lia. rewrite Nat.sub_diag. cbn.
  rewrite insert_app_r_alt by lia. rewrite Nat.sub_diag. cbn.
  rewrite Hsp, Hpl, Hci.
  by destruct (doNext _ _).
Qed.

(* ----- every move keeps the invariant ----- *)


Lemma world_of_bind_ret {A B} (m : M A) (b : B) w :
  world_of ((m >> ret b) w) = world_of (m w).
Proof. unfold bind, ret. by destruct (m w). Qed.

Lemma same_sequences (w w' : World) :
  sequences w' = sequences w ->
  forall q s', sequences w' !! q = Some s' ->
    exists s, sequences w !! q = Some s /\ spacing s' = spacing s.
Proof. intros -> q s' H. eauto. Qed.

Lemma wf_addSound name buf w : wf w -> wf (exec (LAddSound name buf) w).
Proof.
  intros Hwf. unfold exec, run, addSound_done.
  destruct (bool_decide _); cbn; [done|].
  apply (wf_quiet w); try done; cbn; auto.
  - apply Hwf.
  - by apply same_sequences.
Qed.

Lemma wf_play name k volume panValue loop offset w :
  wf w -> wf (exec (LPlay name k volume panValue loop offset) w).
Proof.
  intros Hwf. unfold exec, run. rewrite world_of_bind_ret.
  match goal with |- context [play ?n ?o] =>
    pose proof (play_frame n o w) as (? & ? & Hsq & ? & Hclk & Hloop & Hpend & Hev & Hst & Hlg)
  end.
  apply (wf_quiet w); try done.
  - rewrite Hloop. apply Forall_app. split; [apply Hwf|].
    destruct (play _ _ w); [|constructor]. cbn. destruct loop; repeat constructor.
  - by rewrite Hsq.
  - by apply same_sequences.
  - intros q. rewrite Hpend, owned_app.
    destruct (play _ _ w); cbn; [|by rewrite app_nil_r].
    destruct k; cbn; by rewrite app_nil_r.
  - intros te H'. destruct (Hlg te H') as [?|Ht]; [by left|right]. rewrite Ht, Hclk. lia.
  - rewrite Hclk. lia.
Qed.

Lemma seq_events_stop_calls q now (l : list LoopEntry) lg :
  seq_events q (((fun it => (now, Stop (loopHandle it))) <$> l) ++ lg) = seq_events q lg.
Proof.
  induction l as [|it l IH]; [done|].
  rewrite fmap_cons, <- app_comm_cons, seq_events_cons. by cbn.
Qed.

Lemma wf_stopLoop name w : wf w -> wf (exec (LStopLoop name) w).
Proof.
  intros Hwf. unfold exec, run. rewrite stopLoop_spec. cbn [world_of].
  apply (wf_quiet w); try done; cbn.
  - apply Forall_forall. by intros it [H _]%list_elem_of_filter.
  - by apply same_sequences.
  - intros q. apply seq_events_stop_calls.
  - intros te [H|H]%elem_of_app; [|by left]. right.
    apply list_elem_of_fmap in H as [it [-> _]]. cbn. lia.
Qed.

Lemma wf_speak text k vp rate w : wf w -> wf (exec (LSpeak text k vp rate) w).
Proof.
  intros Hwf. unfold exec, run.
  match goal with |- context [speak ?t ?o] =>
    destruct (speak_frame t o w) as (w' & -> & ? & ? & Hsq & ? & Hclk & Hloop & Hpend & Hev & Hst & Hlg)
  end.
  cbn [world_of]. apply (wf_quiet w); try done.
  - rewrite Hloop. apply Hwf.
  - by rewrite Hsq.
  - by apply same_sequences.
  - intros q. rewrite Hpend, owned_app. destruct k; cbn; by rewrite app_nil_r.
  - intros te H'. destruct (Hlg te H') as [?|Ht]; [by left|right]. rewrite Ht, Hclk. lia.
  - rewrite Hclk. lia.
Qed.

Lemma wf_cancel q w : wf w -> wf (exec (LCancel q) w).
Proof.
  intros Hwf. unfold exec, run. unfold_m. cbn.
  destruct (sequences w !! q) as [s|] eqn:Hs; cbn; [|done].
  apply (wf_quiet w); try done; cbn; auto.
  - apply Hwf.
  - by rewrite length_insert.
  - intros q' s' H. destruct (decide (q = q')) as [<-|Hne].
    + rewrite list_lookup_insert_eq in H by (by apply lookup_lt_Some in Hs).
      injection H as <-. eauto.
    + rewrite list_lookup_insert_ne in H by done. eauto.
Qed.

Lemma wf_tick d w : wf w -> wf (exec (LTick d) w).
Proof.
  intros Hwf. unfold exec, run. unfold_m. cbn.
  apply (wf_quiet w); try done; cbn; auto.
  - apply Hwf.
  - by apply same_sequences.
  - lia.
Qed.

Lemma owned_none q ps : (forall p, p ∈ ps -> owner p ≠ Some q) -> owned q ps = [].
Proof.
  intros H. induction ps as [|p ps IH]; [done|].
  rewrite owned_cons_other by (apply H; left). apply IH. intros ? ?. apply H. by right.
Qed.

Lemma owned_dispatch_other q q' (r : Outcome unit) (first : QueueItem) n :
  q' ≠ q ->
  owned q' (match r with
            | Return _ _ => [if is_text first then OnEnd (SeqCallback q)
                             else OnEnded n (SeqCallback q)]
            | Throw _ _ => []
            end) = [].
Proof.
  intros Hne. apply owned_none. intros p Hp Ho.
  destruct r; [|by apply elem_of_nil in Hp].
  apply list_elem_of_singleton in Hp as ->.
  destruct (is_text first); cbn in Ho; congruence.
Qed.

Lemma owned_dispatch_own q (r : Outcome unit) (first : QueueItem) n :
  let own := owned q (match r with
                      | Return _ _ => [if is_text first then OnEnd (SeqCallback q)
                                       else OnEnded n (SeqCallback q)]
                      | Throw _ _ => []
                      end) in
  own = [] \/ (exists cb, own = [OnEnd cb]) \/ (exists n cb, own = [OnEnded n cb]).
Proof.
  intros own. subst own. destruct r; [|by left]. right.
  destruct (is_text first); rewrite owned_cons_own by done; eauto.
Qed.

Lemma seq_events_cons_other (q' : nat) t e lg :
  seq_event q' e = None -> seq_events q' ((t, e) :: lg) = seq_events q' lg.
Proof. intros H. by rewrite seq_events_cons, H. Qed.

Lemma wf_remove_game i p w :
  wf w -> pending w !! i = Some p -> owner p = None ->
  wf (set_pending (delete i (pending w)) w).
Proof.
  intros Hwf Hi Ho. apply (wf_quiet w); try done; cbn; auto.
  - apply Hwf.
  - by apply same_sequences.
  - intros q. apply (owned_delete_other q i p); [done | congruence].
Qed.

Lemma wf_complete i p q w :
  wf w -> pending w !! i = Some p -> owner p = Some q ->
  (forall due q', p ≠ Timeout due q') ->
  wf (world_of (callback q (set_pending (delete i (pending w)) w))).
Proof.
  intros Hwf Hi Ho Hnt.
  pose proof Hwf as (Hl & Hpv & Hlp & Hlv & Hs).
  assert (q < length (sequences w)) as Hq.
  { apply (Hpv p); [|done]. by apply list_elem_of_lookup_2 in Hi. }
  destruct (lookup_lt_is_Some_2 _ _ Hq) as [s Hsq].
  destruct (Hs q s Hsq) as [Hsp Hinv].
  destruct (owned_delete_own q i p (pending w) Hi Ho
              (seq_inv_owned_length _ _ _ Hinv)) as [Hown Hown'].
  rewrite Hown in Hinv.
  rewrite (callback_spec q _ s) by done. cbn [world_of].
  assert (forall q', q' ≠ q ->
            seq_events q' ((clock w, CallbackEntered q) :: log w) = seq_events q' (log w)) as Hev.
  { intros q' Hne. apply seq_events_cons_other. cbn. by destruct (decide (q = q')). }
  assert (seq_events q ((clock w, CallbackEntered q) :: log w)
          = (clock w, Completed) :: seq_events q (log w)) as Hevq.
  { rewrite seq_events_cons. cbn. by destruct (decide (q = q)). }
  assert (forall te, te ∈ (clock w, CallbackEntered q) :: log w ->
            te ∈ log w \/ (te.1 <= clock w)%N) as Hlg.
  { intros te [->|H]%elem_of_cons; [right; cbn; lia | by left]. }
  destruct (hasNext s); apply (wf_step w _ q).
  - done.
  - apply Hl.
  - done.
  - intros q' s' _. by apply same_sequences.
  - intros q' Hne. fields. rewrite owned_app, (owned_delete_other q' i p) by congruence.
    rewrite owned_cons_other by (cbn; congruence). by rewrite app_nil_r.
  - intros q' Hne. by apply Hev.
  - apply Hlg.
  - cbn. lia.
  - done.
  - intros s' Hs'. cbn in Hs'. split; [congruence|]. fields.
    rewrite Hevq, owned_app, Hown', owned_cons_own by done. cbn [app].
    apply (seq_inv_complete _ p q); try done.
    + intros t se. by apply seq_events_bound.
    + right. by rewrite Hsp.
  - done.
  - apply Hl.
  - cbn. by rewrite length_insert.
  - intros q' s' Hne H. cbn in H. rewrite list_lookup_insert_ne in H by done. eauto.
  - intros q' Hne. fields. apply (owned_delete_other q' i p); [done | congruence].
  - intros q' Hne. by apply Hev.
  - apply Hlg.
  - cbn. lia.
  - cbn. by rewrite length_insert.
  - intros s' Hs'. cbn in Hs'. rewrite list_lookup_insert_eq in Hs' by done.
    injection Hs' as <-. split; [done|]. fields.
    rewrite Hevq, Hown'.
    apply (seq_inv_complete _ p q); try done; [|by left].
    intros t se. by apply seq_events_bound.
Qed.

Lemma wf_timer i due q w :
  wf w -> pending w !! i = Some (Timeout due q) -> (due <= clock w)%N ->
  wf (world_of (doNext q (set_pending (delete i (pending w)) w))).
Proof.
  intros Hwf Hi Hdue.
  pose proof Hwf as (Hl & Hpv & Hlp & Hlv & Hs).
  assert (q < length (sequences w)) as Hq.
  { apply (Hpv (Timeout due q)); [|done]. by apply list_elem_of_lookup_2 in Hi. }
  destruct (lookup_lt_is_Some_2 _ _ Hq) as [s Hsq].
  destruct (Hs q s Hsq) as [Hsp Hinv].
  destruct (owned_delete_own q i _ (pending w) Hi eq_refl
              (seq_inv_owned_length _ _ _ Hinv)) as [Hown Hown'].
  rewrite Hown in Hinv.
  set (w0 := set_pending (delete i (pending w)) w).
  assert (forall q', q' ≠ q -> owned q' (pending w0) = owned q' (pending w)) as Hoth.
  { intros q' Hne. apply (owned_delete_other q' i (Timeout due q)); [done|].
    cbn. congruence. }
  destruct (hasNext s && truthy (isPlaying s)) eqn:Hgo.
  - apply andb_true_iff in Hgo as [Hn Hp].
    destruct (queue s) as [|first rest] eqn:Hqs; [by unfold hasNext in Hn; rewrite Hqs in Hn|].
    pose proof (doNext_dispatch q w0 s first rest Hsq Hqs Hp)
      as (Hsq' & Hclk & _ & _ & Hloop & Hpend & Hev & _ & Hlg).
    cbn zeta in *.
    apply (wf_step w _ q); try done.
    + rewrite Hloop. apply Hl.
    + by rewrite Hsq', length_insert.
    + intros q' s' Hne H. rewrite Hsq', list_lookup_insert_ne in H by done. eauto.
    + intros q' Hne. rewrite Hpend, owned_app, owned_dispatch_other, app_nil_r by done.
      by apply Hoth.
    + intros q' Hne. rewrite Hev. by destruct (decide (q = q')).
    + intros te H. destruct (Hlg te H) as [?|Ht]; [by left|right]. rewrite Ht, Hclk. cbn. lia.
    + rewrite Hclk. cbn. lia.
    + by rewrite Hsq', length_insert.
    + intros s' Hs'. rewrite Hsq', list_lookup_insert_eq in Hs' by done.
      injection Hs' as <-. split; [done|].
      rewrite Hev, Hpend, owned_app. destruct (decide (q = q)); [|done].
      cbn [app]. change (owned q (pending w0)) with (owned q (delete i (pending w))).
      rewrite Hown'. cbn [app].
      apply (seq_inv_dispatch _ due q); [done | done |].
      apply owned_dispatch_own.
  - rewrite (doNext_idle q w0 s) by done. cbn [world_of].
    apply (wf_step w _ q).
    + done.
    + apply Hl.
    + done.
    + intros q' s' _. by apply same_sequences.
    + done.
    + done.
    + intros te H. by left.
    + cbn. lia.
    + done.
    + intros s' Hs'. cbn in Hs'. assert (s' = s) as -> by congruence. split; [done|].
      change (owned q (pending w0)) with (owned q (delete i (pending w))).
      rewrite Hown'. by apply seq_inv_drop in Hinv.
Qed.

Lemma wf_fire i w : wf w -> wf (exec (LFire i) w).
Proof.
  intros Hwf. unfold exec, run, fire. unfold bind at 1. unfold gets at 1.
  destruct (pending w !! i) as [[n cb|cb|due q]|] eqn:Hi; [| | |done].
  - unfold bind, remove_pending, modify.
    destruct cb as [q|k]; cbn [run_callback].
    + by apply (wf_complete i (OnEnded n (SeqCallback q)) q).
    + by apply (wf_remove_game i (OnEnded n (GameCallback k))).
  - unfold bind, remove_pending, modify.
    destruct cb as [q|k]; cbn [run_callback].
    + by apply (wf_complete i (OnEnd (SeqCallback q)) q).
    + by apply (wf_remove_game i (OnEnd (GameCallback k))).
  - unfold bind at 1. unfold gets at 1.
    destruct (due <=? clock w)%N eqn:Hdue; [|done].
    unfold bind, remove_pending, modify.
    apply (wf_timer i due q); [done | done | by apply N.leb_le].
Qed.

Lemma wf_speakWithSoundEffects text vp w :
  wf w -> wf (exec (LSpeakWithSoundEffects text vp) w).
Proof.
  intros Hwf. unfold exec, run. rewrite world_of_bind_ret.
  rewrite speakWithSoundEffects_unfold.
  pose proof Hwf as (Hl & Hpv & Hlp & Hlv & Hs).
  set (q := length (sequences w)).
  set (s0 := {| queue := queue (parse text vp); spacing := 100%N; playing := false;
                isPlaying := Some true; currentItem := None |}).
  set (w2 := set_sequences (sequences w ++ [s0]) w).
  assert (sequences w2 !! q = Some s0) as Hsq.
  { subst w2 q. cbn. rewrite lookup_app_r by lia. by rewrite Nat.sub_diag. }
  destruct (queue (parse text vp)) as [|first rest] eqn:Hqs;
    [by destruct (parse_nonempty text vp)|].
  pose proof (doNext_dispatch q w2 s0 first rest Hsq eq_refl eq_refl)
    as (Hsq' & Hclk & _ & _ & Hloop & Hpend & Hev & _ & Hlg).
  cbn zeta in *.
  assert (owned q (pending w) = []) as Hown0.
  { apply owned_none. intros p Hin Ho. specialize (Hpv p q Hin Ho). subst q. lia. }
  assert (seq_events q (log w) = []) as Hev0 by (apply Hlv; subst q; lia).
  set (r := doNext q w2) in *.
  assert (wf (world_of r)) as Hwf3.
  { apply (wf_step w _ q); try done.
    - rewrite Hloop. apply Hl.
    - rewrite Hsq', length_insert. cbn. rewrite length_app. lia.
    - intros q' s' Hne H. rewrite Hsq', list_lookup_insert_ne in H by done.
      cbn in H. apply lookup_app_Some in H as [H|[Hge H]]; [eauto|].
      apply lookup_lt_Some in H. cbn in H. subst q. lia.
    - intros q' Hne. rewrite Hpend, owned_app, owned_dispatch_other, app_nil_r by done. done.
    - intros q' Hne. rewrite Hev. by destruct (decide (q = q')).
    - intros te H. destruct (Hlg te H) as [?|Ht]; [by left|right]. rewrite Ht, Hclk. cbn. lia.
    - rewrite Hclk. cbn. lia.
    - rewrite Hsq', length_insert. cbn. rewrite length_app. cbn. subst q. lia.
    - intros s' Hs'. rewrite Hsq', list_lookup_insert_eq in Hs'.
      2:{ cbn. rewrite length_app. cbn. subst q. lia. }
      injection Hs' as <-. split; [done|].
      rewrite Hev, Hpend, owned_app. destruct (decide (q = q)); [|done].
      change (pending w2) with (pending w). change (log w2) with (log w).
      rewrite Hown0, Hev0. cbn [app].
      apply seq_inv_first. apply owned_dispatch_own. }
  destruct r as [[] w3|e w3]; cbn [world_of] in *; [|done].
  apply (wf_quiet w3).
  - done.
  - apply Hwf3.
  - done.
  - by apply same_sequences.
  - done.
  - done.
  - intros te H. by left.
  - cbn. lia.
Qed.

Lemma wf_exec l w : wf w -> wf (exec l w).
Proof.
  destruct l.
  - apply wf_addSound.
  - apply wf_play.
  - apply wf_stopLoop.
  - apply wf_speak.
  - apply wf_speakWithSoundEffects.
  - apply wf_cancel.
  - apply wf_fire.
  - apply wf_tick.
Qed.

Lemma wf_execs ls w : wf w -> wf (execs ls w).
Proof.
  revert w. induction ls as [|l ls IH]; intros w Hwf; [done|].
  cbn. apply IH. by apply wf_exec.
Qed.

Lemma wf_new vs : wf (new_AudioManager vs).
Proof.
  split; [constructor|]. split; [|split; [|split]].
  - intros p q H. by apply elem_of_nil in H.
  - intros te H. by apply elem_of_nil in H.
  - done.
  - intros q s H. done.
Qed.

Lemma reachable_wf w : reachable w -> wf w.
Proof. intros (vs & ls & ->). apply wf_execs, wf_new. Qed.

(* ----- source order ----- *)

Lemma script_same q w w' :
  sequences w' !! q = sequences w !! q ->
  seq_events q (log w') = seq_events q (log w) ->
  script q w' = script q w.
Proof. intros H1 H2. unfold script, remaining, dispatched. by rewrite H1, H2. Qed.

Lemma script_callback q' q w :
  q' < length (sequences w) ->
  script q (world_of (callback q' w)) = script q w.
Proof.
  intros Hq'. destruct (lookup_lt_is_Some_2 _ _ Hq') as [s Hs].
  rewrite (callback_spec q' w s Hs). cbn [world_of].
  unfold script, remaining, dispatched.
  assert (omap (fun tse : N * SeqEv =>
                  match tse.2 with Dispatched it => Some it | Completed => None end)
               (seq_events q ((clock w, CallbackEntered q') :: log w))
          = omap (fun tse : N * SeqEv =>
                  match tse.2 with Dispatched it => Some it | Completed => None end)
               (seq_events q (log w))) as Hd.
  { rewrite seq_events_cons. cbn [seq_event]. by destruct (decide (q' = q)). }
  destruct (hasNext s) eqn:Hn; fields; rewrite Hd; [done|].
  f_equal. destruct (decide (q' = q)) as [->|Hne].
  - rewrite list_lookup_insert_eq by done. rewrite Hs. cbn.
    unfold hasNext in Hn. by destruct (queue s).
  - by rewrite list_lookup_insert_ne.
Qed.

Lemma script_doNext q' q w :
  q' < length (sequences w) ->
  script q (world_of (doNext q' w)) = script q w.
Proof.
  intros Hq'. destruct (lookup_lt_is_Some_2 _ _ Hq') as [s Hs].
  destruct (hasNext s && truthy (isPlaying s)) eqn:Hgo.
  2:{ by rewrite (doNext_idle q' w s). }
  apply andb_true_iff in Hgo as [Hn Hp].
  destruct (queue s) as [|first rest] eqn:Hqs; [by unfold hasNext in Hn; rewrite Hqs in Hn|].
  pose proof (doNext_dispatch q' w s first rest Hs Hqs Hp)
    as (Hsq' & _ & _ & _ & _ & _ & Hev & _ & _).
  cbn zeta in *. unfold script, remaining, dispatched. rewrite Hsq', Hev.
  destruct (decide (q' = q)) as [->|Hne].
  - rewrite list_lookup_insert_eq by done. rewrite Hs, Hqs. cbn.
    by rewrite <- app_assoc.
  - by rewrite list_lookup_insert_ne.
Qed.

Lemma length_sequences_exec l w :
  wf w -> length (sequences w) <= length (sequences (exec l w)).
Proof.
  intros Hwf. pose proof Hwf as (_ & Hpv & _).
  destruct l; unfold exec, run.
  - unfold addSound_done. by destruct (bool_decide _).
  - rewrite world_of_bind_ret.
    match goal with |- context [play ?n ?o] =>
      pose proof (play_frame n o w) as (_ & _ & Hs & _) end.
    cbn zeta in Hs. by rewrite Hs.
  - by rewrite stopLoop_spec.
  - match goal with |- context [speak ?t ?o] =>
      destruct (speak_frame t o w) as (w' & -> & _ & _ & Hs & _) end.
    cbn [world_of]. by rewrite Hs.
  - rewrite world_of_bind_ret, speakWithSoundEffects_unfold.
    set (s0 := {| queue := queue (parse formattedText vp); spacing := 100%N;
                  playing := false; isPlaying := Some true; currentItem := None |}).
    set (w2 := set_sequences (sequences w ++ [s0]) w).
    assert (sequences w2 !! length (sequences w) = Some s0) as Hsq.
    { subst w2. cbn. rewrite lookup_app_r by lia. by rewrite Nat.sub_diag. }
    destruct (queue (parse formattedText vp)) as [|first rest] eqn:Hqs;
      [by destruct (parse_nonempty formattedText vp)|].
    pose proof (doNext_dispatch _ w2 s0 first rest Hsq eq_refl eq_refl) as (Hsq' & _).
    cbn zeta in Hsq'.
    assert (length (sequences w) <= length (sequences (world_of (doNext (length (sequences w)) w2)))).
    { rewrite Hsq', length_insert. cbn. rewrite length_app. lia. }
    by destruct (doNext _ w2).
  - unfold_m. cbn. destruct (sequences w !! q); cbn; [|done]. by rewrite length_insert.
  - unfold fire. unfold bind at 1. unfold gets at 1.
    destruct (pending w !! i) as [[n cb|cb|due q]|] eqn:Hi; [| | |done].
    + unfold bind, remove_pending, modify. destruct cb as [q|k]; cbn [run_callback]; [|done].
      assert (q < length (sequences w)) as Hq.
      { apply (Hpv (OnEnded n (SeqCallback q))); [|done]. by apply list_elem_of_lookup_2 in Hi. }
      destruct (lookup_lt_is_Some_2 _ _ Hq) as [s Hs].
      rewrite (callback_spec q _ s) by done.
      destruct (hasNext s); fields; [done|]. by rewrite length_insert.
    + unfold bind, remove_pending, modify. destruct cb as [q|k]; cbn [run_callback]; [|done].
      assert (q < length (sequences w)) as Hq.
      { apply (Hpv (OnEnd (SeqCallback q))); [|done]. by apply list_elem_of_lookup_2 in Hi. }
      destruct (lookup_lt_is_Some_2 _ _ Hq) as [s Hs].
      rewrite (callback_spec q _ s) by done.
      destruct (hasNext s); fields; [done|]. by rewrite length_insert.
    + unfold bind at 1. unfold gets at 1.
      destruct (due <=? clock w)%N; [|done].
      unfold bind, remove_pending, modify.
      assert (q < length (sequences w)) as Hq.
      { apply (Hpv (Timeout due q)); [|done]. by apply list_elem_of_lookup_2 in Hi. }
      destruct (lookup_lt_is_Some_2 _ _ Hq) as [s Hs].
      set (w0 := set_pending _ w).
      destruct (hasNext s && truthy (isPlaying s)) eqn:Hgo.
      2:{ by rewrite (doNext_idle q w0 s). }
      apply andb_true_iff in Hgo as [Hn Hp].
      destruct (queue s) as [|first rest] eqn:Hqs; [by unfold hasNext in Hn; rewrite Hqs in Hn|].
      pose proof (doNext_dispatch q w0 s first rest Hs Hqs Hp) as (Hsq' & _).
      cbn zeta in Hsq'. rewrite Hsq', length_insert. done.
  - done.
Qed.

Lemma script_exec l w q :
  wf w -> q < length (sequences w) -> l ≠ LCancel q ->
  script q (exec l w) = script q w.
Proof.
  intros Hwf Hq Hl. pose proof Hwf as (_ & Hpv & _).
  destruct l; unfold exec, run.
  - unfold addSound_done. by destruct (bool_decide _).
  - rewrite world_of_bind_ret.
    match goal with |- context [play ?n ?o] =>
      pose proof (play_frame n o w) as (_ & _ & Hs & _ & _ & _ & _ & Hev & _) end.
    cbn zeta in *. apply script_same; [by rewrite Hs | apply Hev].
  - rewrite stopLoop_spec. apply script_same; [done|]. fields.
    apply seq_events_stop_calls.
  - match goal with |- context [speak ?t ?o] =>
      destruct (speak_frame t o w) as (w' & -> & _ & _ & Hs & _ & _ & _ & _ & Hev & _) end.
    cbn [world_of]. apply script_same; [by rewrite Hs | apply Hev].
  - rewrite world_of_bind_ret, speakWithSoundEffects_unfold.
    set (s0 := {| queue := queue (parse formattedText vp); spacing := 100%N;
                  playing := false; isPlaying := Some true; currentItem := None |}).
    set (w2 := set_sequences (sequences w ++ [s0]) w).
    assert (script q w2 = script q w) as <-.
    { apply script_same; [|done]. subst w2. cbn. by rewrite lookup_app_l. }
    assert (script q (world_of (doNext (length (sequences w)) w2)) = script q w2) as <-.
    { apply script_doNext. subst w2. cbn. rewrite length_app. cbn. lia. }
    by destruct (doNext _ w2).
  - unfold_m. cbn -[script]. destruct (sequences w !! q0) eqn:Hq0; cbn -[script]; [|done].
    apply script_same; [|done]. cbn. apply list_lookup_insert_ne. congruence.
  - unfold fire. unfold bind at 1. unfold gets at 1.
    destruct (pending w !! i) as [[n cb|cb|due q']|] eqn:Hi; [| | |done].
    + unfold bind, remove_pending, modify. destruct cb as [q'|k]; cbn [run_callback]; [|done].
      assert (q' < length (sequences w)) as Hq'.
      { apply (Hpv (OnEnded n (SeqCallback q'))); [|done]. by apply list_elem_of_lookup_2 in Hi. }
      by rewrite script_callback.
    + unfold bind, remove_pending, modify. destruct cb as [q'|k]; cbn [run_callback]; [|done].
      assert (q' < length (sequences w)) as Hq'.
      { apply (Hpv (OnEnd (SeqCallback q'))); [|done]. by apply list_elem_of_lookup_2 in Hi. }
      by rewrite script_callback.
    + unfold bind at 1. unfold gets at 1.
      destruct (due <=? clock w)%N; [|done].
      unfold bind, remove_pending, modify.
      assert (q' < length (sequences w)) as Hq'.
      { apply (Hpv (Timeout due q')); [|done]. by apply list_elem_of_lookup_2 in Hi. }
      by rewrite script_doNext.
  - done.
Qed.

Lemma script_execs ls w q :
  wf w -> q < length (sequences w) -> LCancel q ∉ ls ->
  script q (execs ls w) = script q w /\ q < length (sequences (execs ls w)).
Proof.
  revert w. induction ls as [|l ls IH]; intros w Hwf Hq Hl; [done|].
  change (execs (l :: ls) w) with (execs ls (exec l w)).
  apply not_elem_of_cons in Hl as [Hl1 Hl2].
  pose proof (length_sequences_exec l w Hwf).
  destruct (IH (exec l w)) as [IH1 IH2]; [by apply wf_exec | lia | done |].
  split; [|done]. rewrite IH1. apply script_exec; auto.
Qed.

(* ----- a new narration ----- *)

Lemma speakWithSoundEffects_started text vp w q w1 :
  wf w ->
  speakWithSoundEffects text vp w = Return q w1 ->
  q = length (sequences w) /\ wf w1 /\ q < length (sequences w1)
  /\ script q w1 = queue (parse text vp)
  /\ mgr_queue w1 = Some q
  /\ (exists first, head (queue (parse text vp)) = Some first
        /\ dispatched q (log w1) = [first]).
Proof.
  intros Hwf Hret.
  assert (wf w1) as Hwf1.
  { pose proof (wf_speakWithSoundEffects text vp w Hwf) as H.
    unfold exec, run in H. rewrite world_of_bind_ret, Hret in H. exact H. }
  pose proof Hwf as (_ & _ & _ & Hlv & _).
  rewrite speakWithSoundEffects_unfold in Hret.
  set (s0 := {| queue := queue (parse text vp); spacing := 100%N; playing := false;
                isPlaying := Some true; currentItem := None |}) in *.
  set (w2 := set_sequences (sequences w ++ [s0]) w) in *.
  set (q0 := length (sequences w)) in *.
  assert (sequences w2 !! q0 = Some s0) as Hsq.
  { subst w2 q0. cbn. rewrite lookup_app_r by lia. by rewrite Nat.sub_diag. }
  destruct (queue (parse text vp)) as [|first rest] eqn:Hqs;
    [by destruct (parse_nonempty text vp)|].
  pose proof (doNext_dispatch q0 w2 s0 first rest Hsq eq_refl eq_refl)
    as (Hsq' & _ & _ & _ & _ & _ & Hev & _ & _).
  cbn zeta in *.
  destruct (doNext q0 w2) as [[] w3|e w3]; [|done].
  injection Hret as <- <-. cbn [world_of] in *.
  assert (seq_events q0 (log w) = []) as Hev0 by (apply Hlv; subst q0; lia).
  assert (q0 < length (sequences w3)) as Hlen.
  { rewrite Hsq', length_insert. subst w2 q0. cbn. rewrite length_app. cbn. lia. }
  split; [done|]. split; [done|]. split; [done|].
  assert (dispatched q0 (log w3) = [first]) as Hd.
  { unfold dispatched. rewrite Hev. destruct (decide (q0 = q0)); [|done].
    change (log w2) with (log w). by rewrite Hev0. }
  split; [|split; [done|]].
  - unfold script, remaining. fields. rewrite Hd, Hsq'.
    rewrite list_lookup_insert_eq; [done|].
    subst w2 q0. cbn. rewrite length_app. cbn. lia.
  - exists first. done.
Qed.

Lemma well_spaced_suffix sp pre evs :
  well_spaced sp (pre ++ evs) = true -> well_spaced sp evs = true.
Proof.
  induction pre as [|[t e] pre IH]; [done|].
  intros H. apply IH. cbn [app well_spaced] in H.
  destruct e, (pre ++ evs) as [|[t' [|]] l]; try done;
    by apply andb_true_iff in H as [_ H].
Qed.

Lemma well_spaced_dispatch sp t2 it2 rest :
  well_spaced sp ((t2, Dispatched it2) :: rest) = true ->
  rest = [] \/
  exists tc t1 it1 rest',
    rest = (tc, Completed) :: (t1, Dispatched it1) :: rest'
    /\ (t1 <= tc)%N /\ (tc + sp <= t2)%N.
Proof.
  intros H. destruct rest as [|[tc [|]] rest]; [by left|done|]. right.
  change (((tc + sp <=? t2)%N && well_spaced sp ((tc, Completed) :: rest)) = true) in H.
  apply andb_true_iff in H as [H1%N.leb_le H2].
  destruct rest as [|[t1 [it1|]] rest]; [done| |done].
  change (((t1 <=? tc)%N && well_spaced sp ((t1, Dispatched it1) :: rest)) = true) in H2.
  apply andb_true_iff in H2 as [H2%N.leb_le _].
  eauto 10.
Qed.

(** C9: within one un-canceled cue queue the items are dispatched in
    source order, nothing skipped or repeated; the sequence's events
    alternate dispatch, completion, dispatch, ..., so that every item but
    the first is handed to speak or play only after the completion
    callback of the item before it has run, and at least the spacing of
    100 ms after it. *)
Theorem sequence_dispatch_order (w : World) (text : jsstring)
    (vp : option jsstring) (q : nat) (w1 : World) (ls : list Label) :
  reachable w ->
  speakWithSoundEffects text vp w = Return q w1 ->
  LCancel q ∉ ls ->
  let w2 := execs ls w1 in
  dispatched q (log w2) ++ remaining q w2 = queue (parse text vp)
  /\ (exists s, sequences w2 !! q = Some s /\ spacing s = 100%N)
  /\ well_spaced 100 (seq_events q (log w2)) = true
  /\ (forall pre t2 it2 rest,
        seq_events q (log w2) = pre ++ (t2, Dispatched it2) :: rest ->
        rest = [] \/
        exists tc t1 it1 rest',
          rest = (tc, Completed) :: (t1, Dispatched it1) :: rest'
          /\ (t1 <= tc)%N /\ (tc + 100 <= t2)%N /\ (tc < t2)%N).
Proof.
  intros Hr Hret Hnc w2.
  destruct (speakWithSoundEffects_started text vp w q w1 (reachable_wf w Hr) Hret)
    as (_ & Hwf1 & Hq1 & Hscript & _).
  destruct (script_execs ls w1 q Hwf1 Hq1 Hnc) as [Hs2 Hq2].
  pose proof (wf_execs ls w1 Hwf1) as (_ & _ & _ & _ & Hok).
  fold w2 in Hs2, Hq2, Hok.
  destruct (lookup_lt_is_Some_2 _ _ Hq2) as [s Hs].
  destruct (Hok q s Hs) as [Hsp [Hws _]].
  split; [by rewrite <- Hscript, <- Hs2|]. split; [eauto|]. split; [done|].
  intros pre t2 it2 rest Heq. rewrite Heq in Hws.
  apply well_spaced_suffix, well_spaced_dispatch in Hws
    as [->|(tc & t1 & it1 & rest' & -> & H1 & H2)]; [by left|right].
  exists tc, t1, it1, rest'. split_and!; try done. lia.
Qed.

(* ----- progress: what firing the handler of a sequence does ----- *)

Lemma delete_last {A} (l : list A) x : delete (length l) (l ++ [x]) = l.
Proof. induction l as [|a l IH]; [done|]. cbn. f_equal. exact IH. Qed.

Lemma lookup_last {A} (l : list A) x : (l ++ [x]) !! length l = Some x.
Proof. rewrite lookup_app_r by lia. by rewrite Nat.sub_diag. Qed.

Lemma dispatched_app_events q (new : list (N * SeqEv)) lg lg' :
  seq_events q lg' = new ++ seq_events q lg ->
  dispatched q lg'
  = dispatched q lg ++
    rev (omap (fun tse : N * SeqEv =>
                 match tse.2 with Dispatched it => Some it | Completed => None end) new).
Proof. intros H. unfold dispatched. by rewrite H, omap_app, rev_app_distr. Qed.

Lemma play_found_returns name o w buf :
  soundLibrary w !! name = Some buf ->
  exists w', play name o w = Return (next_node w) w'.
Proof.
  intros H. unfold play. unfold_m. cbn.
  rewrite (has_property_own _ _ _ H), H. cbn.
  destruct (o_loop o), (o_callback o), (Qeq_bool (o_volume o) 1),
    (Qeq_bool (o_panValue o) 0); cbn; eauto.
Qed.

Lemma fire_completion w P p q s :
  pending w = P ++ [p] ->
  (p = OnEnd (SeqCallback q) \/ exists n, p = OnEnded n (SeqCallback q)) ->
  sequences w !! q = Some s -> queue s ≠ [] ->
  let w' := exec (LFire (length P)) w in
  pending w' = P ++ [Timeout (clock w + spacing s) q]
  /\ sequences w' = sequences w /\ clock w' = clock w
  /\ soundLibrary w' = soundLibrary w
  /\ dispatched q (log w') = dispatched q (log w).
Proof.
  intros HP Hp Hs Hne w'.
  assert (hasNext s = true) as Hn by (unfold hasNext; by destruct (queue s)).
  assert (w' = set_pending (P ++ [Timeout (clock w + spacing s) q])
                 (set_log ((clock w, CallbackEntered q) :: log w) w)) as ->.
  { subst w'. unfold exec, run, fire.
    unfold bind at 1. unfold gets at 1. rewrite HP, lookup_last.
    assert (world_of ((remove_pending (length P) >> run_callback (SeqCallback q)) w)
            = set_pending (P ++ [Timeout (clock w + spacing s) q])
                (set_log ((clock w, CallbackEntered q) :: log w) w)) as Hw.
    { unfold bind, remove_pending, modify. cbn [run_callback].
      rewrite (callback_spec q _ s) by done. rewrite Hn. fields.
      by rewrite HP, delete_last. }
    by destruct Hp as [-> | [n ->]]. }
  fields. split_and!; try done.
  rewrite (dispatched_app_events q [(clock w, Completed)] (log w)).
  - cbn. by rewrite app_nil_r.
  - rewrite seq_events_cons. cbn. by destruct (decide (q = q)).
Qed.

Lemma fire_timer w P due q s first rest :
  pending w = P ++ [Timeout due q] ->
  (due <= clock w)%N ->
  sequences w !! q = Some s -> queue s = first :: rest -> isPlaying s = Some true ->
  ((exists vp b, first = text_item vp b)
   \/ (exists name buf, first = sound_item name /\ soundLibrary w !! name = Some buf)) ->
  let w' := exec (LFire (length P)) w in
  pending w' = P ++ [if is_text first then OnEnd (SeqCallback q)
                     else OnEnded (next_node w) (SeqCallback q)]
  /\ sequences w' = <[q := set_queue rest s]> (sequences w) /\ clock w' = clock w
  /\ soundLibrary w' = soundLibrary w
  /\ dispatched q (log w') = dispatched q (log w) ++ [first].
Proof.
  intros HP Hdue Hs Hq Hp Hfirst w'.
  set (w0 := set_pending P w).
  assert (w' = world_of (doNext q w0)) as ->.
  { subst w' w0. unfold exec, run, fire.
    unfold bind at 1. unfold gets at 1. rewrite HP, lookup_last.
    unfold bind at 1. unfold gets at 1. rewrite (proj2 (N.leb_le _ _) Hdue).
    unfold bind at 1. unfold remove_pending at 1, modify at 1.
    by rewrite HP, delete_last. }
  assert (truthy (isPlaying s) = true) as Ht by by rewrite Hp.
  pose proof (doNext_dispatch q w0 s first rest Hs Hq Ht)
    as (Hsq' & Hclk & Hlib & _ & _ & Hpend & Hev & _ & _).
  cbn zeta in *.
  assert (exists w3, doNext q w0 = Return tt w3) as [w3 Hret].
  { rewrite (doNext_unfold q w0 s first rest) by done.
    destruct Hfirst as [(vp & b & ->) | (name & buf & -> & Hlib0)].
    - cbn [text_item mediaType prefs item]. rewrite bool_decide_eq_true_2 by done.
      match goal with |- context [speak ?t ?o ?w] =>
        destruct (speak_frame t o w) as (w3 & -> & _) end. eauto.
    - cbn [sound_item mediaType prefs item]. rewrite bool_decide_eq_false_2 by done.
      rewrite bool_decide_eq_true_2 by done.
      match goal with |- context [play ?n ?o] =>
        destruct (play_found_returns n o
          (set_log ((clock w0, ConsoleLog q (sound_item name)) :: log w0)
             (set_sequences (<[q:=set_queue rest s]> (sequences w0)) w0)) buf Hlib0)
          as (w3 & Hplay) end.
      unfold bind, ret. rewrite Hplay. eauto. }
  rewrite Hret in *. cbn [world_of] in *.
  split_and!; try done.
  rewrite (dispatched_app_events q [(clock w, Dispatched first)] (log w)); [done|].
  rewrite Hev. by destruct (decide (q = q)).
Qed.

Lemma tick_fields d w :
  let w' := exec (LTick d) w in
  pending w' = pending w /\ sequences w' = sequences w
  /\ clock w' = (clock w + d)%N /\ soundLibrary w' = soundLibrary w
  /\ log w' = log w.
Proof. done. Qed.

Lemma speakWithSoundEffects_first text vp w first rest :
  wf w ->
  queue (parse text vp) = first :: rest ->
  ((exists b, first = text_item vp b)
   \/ (exists name buf, first = sound_item name /\ soundLibrary w !! name = Some buf)) ->
  let q := length (sequences w) in
  exists w1,
    speakWithSoundEffects text vp w = Return q w1
    /\ pending w1 = pending w ++ [if is_text first then OnEnd (SeqCallback q)
                                  else OnEnded (next_node w) (SeqCallback q)]
    /\ sequences w1 !! q = Some {| queue := rest; spacing := 100%N; playing := false;
                                   isPlaying := Some true; currentItem := None |}
    /\ clock w1 = clock w /\ soundLibrary w1 = soundLibrary w
    /\ dispatched q (log w1) = [first].
Proof.
  intros Hwf Hqs Hfirst q.
  pose proof Hwf as (_ & _ & _ & Hlv & _).
  rewrite speakWithSoundEffects_unfold. fold q. rewrite Hqs.
  set (s0 := {| queue := first :: rest; spacing := 100%N; playing := false;
                isPlaying := Some true; currentItem := None |}).
  set (w2 := set_sequences (sequences w ++ [s0]) w).
  assert (sequences w2 !! q = Some s0) as Hsq by apply lookup_last.
  pose proof (doNext_dispatch q w2 s0 first rest Hsq eq_refl eq_refl)
    as (Hsq' & Hclk & Hlib & _ & _ & Hpend & Hev & _ & _).
  cbn zeta in *.
  assert (exists w3, doNext q w2 = Return tt w3) as [w3 Hret].
  { rewrite (doNext_unfold q w2 s0 first rest) by done.
    destruct Hfirst as [(b & ->) | (name & buf & -> & Hlib0)].
    - cbn [text_item mediaType prefs item]. rewrite bool_decide_eq_true_2 by done.
      match goal with |- context [speak ?t ?o ?w] =>
        destruct (speak_frame t o w) as (w3 & -> & _) end. eauto.
    - cbn [sound_item mediaType prefs item]. rewrite bool_decide_eq_false_2 by done.
      rewrite bool_decide_eq_true_2 by done.
      match goal with |- context [play ?n ?o] =>
        destruct (play_found_returns n o
          (set_log ((clock w2, ConsoleLog q (sound_item name)) :: log w2)
             (set_sequences (<[q:=set_queue rest s0]> (sequences w2)) w2)) buf Hlib0)
          as (w3 & Hplay) end.
      unfold bind, ret. rewrite Hplay. eauto. }
  rewrite Hret in *. cbn [world_of] in *.
  eexists. split; [reflexivity|]. fields. split_and!; try done.
  - rewrite Hsq'. subst w2. fields. rewrite insert_app_r_alt by (subst q; lia).
    subst q. rewrite Nat.sub_diag. cbn [insert list_insert]. apply lookup_last.
  - assert (seq_events q (log w) = []) as Hev0 by (apply Hlv; subst q; lia).
    unfold dispatched. rewrite Hev. destruct (decide (q = q)); [|done].
    change (log w2) with (log w). by rewrite Hev0.
Qed.

(** C4 (amended): with "win" registered,
    speakWithSoundEffects("You win {{win}} great job") builds the queue
    [text " You win", sound "win", text " great job"], each phrase with
    the leading space the parser puts before every word; the first item
    is dispatched by the call itself; in every later run that does not
    cancel the queue the items are dispatched in that order, each but the
    first at least 100 ms after the completion of the one before; and
    when the platform fires each completion and each timer once it is
    due, all three are dispatched. *)
Theorem you_win_scenario (w : World) (buf : AudioBuffer) :
  reachable w ->
  soundLibrary w !! js "win" = Some buf ->
  let text := js "You win {{win}} great job" in
  let items := [text_item None (js " You win"); sound_item (js "win");
                text_item None (js " great job")] in
  let q := length (sequences w) in
  let k := length (pending w) in
  queue (parse text None) = items
  /\ exists w1,
       speakWithSoundEffects text None w = Return q w1
       /\ dispatched q (log w1) = [text_item None (js " You win")]
       /\ (forall ls, LCancel q ∉ ls ->
             dispatched q (log (execs ls w1)) ++ remaining q (execs ls w1) = items
             /\ well_spaced 100 (seq_events q (log (execs ls w1))) = true)
       /\ dispatched q (log (execs [LFire k; LTick 100; LFire k;
                                    LFire k; LTick 100; LFire k] w1)) = items.
Proof.
  intros Hr Hlib text items q k.
  assert (queue (parse text None) = items) as Hparse by reflexivity.
  split; [done|].
  pose proof (reachable_wf w Hr) as Hwf.
  destruct (speakWithSoundEffects_first text None w _ _ Hwf Hparse)
    as (w1 & Hret & Hp1 & Hs1 & Hc1 & Hl1 & Hd1); [left; eauto|].
  fold q in Hret, Hp1, Hs1, Hd1.
  change (is_text (text_item None (js " You win"))) with true in Hp1. cbn iota in Hp1.
  exists w1. split; [done|]. split; [done|]. split.
  - intros ls Hnc.
    destruct (speakWithSoundEffects_started text None w q w1 Hwf Hret)
      as (_ & Hwf1 & Hq1 & Hscript & _).
    destruct (script_execs ls w1 q Hwf1 Hq1 Hnc) as [Hs2 Hq2].
    pose proof (wf_execs ls w1 Hwf1) as (_ & _ & _ & _ & Hok).
    destruct (lookup_lt_is_Some_2 _ _ Hq2) as [s Hs].
    destruct (Hok q s Hs) as [Hsp [Hws _]].
    split; [|done]. by rewrite <- Hparse, <- Hscript, <- Hs2.
  - change (execs [LFire k; LTick 100; LFire k; LFire k; LTick 100; LFire k] w1)
      with (exec (LFire k) (exec (LTick 100) (exec (LFire k) (exec (LFire k)
             (exec (LTick 100) (exec (LFire k) w1)))))).
    (* the first phrase ends *)
    destruct (fire_completion w1 (pending w) _ q _ Hp1 (or_introl eq_refl) Hs1)
      as (Hp2 & Hs2 & Hc2 & Hl2 & Hd2); [done|].
    fold k in Hp2, Hs2, Hc2, Hl2, Hd2. cbn [spacing] in Hp2.
    set (w2 := exec (LFire k) w1) in *.
    (* 100 ms pass *)
    destruct (tick_fields 100 w2) as (Hp3 & Hs3 & Hc3 & Hl3 & Hg3).
    set (w3 := exec (LTick 100) w2) in *.
    rewrite Hp2 in Hp3. rewrite Hs2 in Hs3.
    (* the timer fires: the sound *)
    assert (clock w1 + 100 <= clock w3)%N as Hdue3 by (rewrite Hc3, Hc2; lia).
    rewrite <- Hs3 in Hs1.
    assert (soundLibrary w3 !! js "win" = Some buf) as Hlib3 by by rewrite Hl3, Hl2, Hl1.
    destruct (fire_timer w3 (pending w) _ q _ (sound_item (js "win"))
                [text_item None (js " great job")] Hp3 Hdue3 Hs1 eq_refl eq_refl
                (or_intror (ex_intro _ _ (ex_intro _ _ (conj eq_refl Hlib3)))))
      as (Hp4 & Hs4 & Hc4 & Hl4 & Hd4).
    fold k in Hp4, Hs4, Hc4, Hl4, Hd4.
    set (w4 := exec (LFire k) w3) in *.
    change (is_text (sound_item (js "win"))) with false in Hp4. cbn iota in Hp4.
    assert (sequences w4 !! q
            = Some {| queue := [text_item None (js " great job")]; spacing := 100%N;
                      playing := false; isPlaying := Some true; currentItem := None |})
      as Hs4'.
    { rewrite Hs4. apply list_lookup_insert_eq. by apply lookup_lt_Some in Hs1. }
    (* the sound ends *)
    destruct (fire_completion w4 (pending w) _ q _ Hp4 (or_intror (ex_intro _ _ eq_refl)) Hs4')
      as (Hp5 & Hs5 & Hc5 & Hl5 & Hd5); [done|].
    fold k in Hp5, Hs5, Hc5, Hl5, Hd5. cbn [spacing] in Hp5.
    set (w5 := exec (LFire k) w4) in *.
    destruct (tick_fields 100 w5) as (Hp6 & Hs6 & Hc6 & Hl6 & Hg6).
    set (w6 := exec (LTick 100) w5) in *.
    rewrite Hp5 in Hp6.
    (* the timer fires: the second phrase *)
    assert (clock w4 + 100 <= clock w6)%N as Hdue6 by (rewrite Hc6, Hc5; lia).
    rewrite <- Hs5, <- Hs6 in Hs4'.
    destruct (fire_timer w6 (pending w) _ q _ (text_item None (js " great job")) []
                Hp6 Hdue6 Hs4' eq_refl eq_refl
                (or_introl (ex_intro _ _ (ex_intro _ _ eq_refl))))
      as (Hp7 & Hs7 & Hc7 & Hl7 & Hd7).
    fold k in Hd7. rewrite Hd7, Hg6, Hd5, Hd4, Hg3, Hd2, Hd1. done.
Qed.

(* ----- play ----- *)



(** C2 (the code at the failing input): [toString] is not registered
    in a fresh manager, yet play("toString") gets past the guard, because
    [in] also sees the members an object literal inherits; a buffer
    source node is created, and the call ends in the platform's
    TypeError, not in the error "Sound toString not found". *)
Theorem play_inherited_name_passes_guard :
  soundLibrary (new_AudioManager []) !! js "toString" = None
  /\ has_property (soundLibrary (new_AudioManager [])) (js "toString") = true
  /\ exists w',
       play (js "toString") play_defaults (new_AudioManager [])
       = Throw (TypeError (js "The provided value is not of type 'AudioBuffer'")) w'
       /\ log w' = [(0%N, CreateBufferSource 0)]
       /\ next_node w' = 1.
Proof. split; [done|]. split; [done|]. eexists. split; [reflexivity|]. done. Qed.


(* ----- cancel ----- *)

Lemma cancel_inactive s :
  queue (cancel s) = [] /\ isPlaying (cancel s) = Some false /\ hasNext (cancel s) = false.
Proof. done. Qed.

Lemma callback_after_cancel q w s :
  sequences w !! q = Some (cancel s) ->
  exists w',
    callback q w = Return tt w'
    /\ sequences w' = sequences w /\ pending w' = pending w
    /\ dispatched q (log w') = dispatched q (log w)
    /\ stops (log w') = stops (log w).
Proof.
  intros H. rewrite (callback_spec q w _ H). cbn [hasNext cancel queue length Nat.ltb Nat.leb].
  eexists. split; [reflexivity|]. fields. split_and!; try done.
  - by apply list_insert_id.
  - rewrite (dispatched_app_events q [(clock w, Completed)] (log w)).
    + cbn. by rewrite app_nil_r.
    + rewrite seq_events_cons. cbn. by destruct (decide (q = q)).
Qed.

Lemma doNext_after_cancel q w s :
  sequences w !! q = Some (cancel s) ->
  doNext q w = Throw (TypeError (js "this.shutdown is not a function")) w.
Proof. intros H. by apply (doNext_idle q w (cancel s)). Qed.

(** C6 (the code at the failing input): sequence 0 sleeps in its
    spacing delay when cancel() is called on it.  The cancel empties the
    queue and clears the flag; when the timer then fires, the
    continuation of the completion callback dispatches nothing but calls
    this.shutdown, which does not exist: a TypeError is raised. *)
Theorem cancel_during_spacing_throws :
  let w := exec (LTick 100) (exec (LCancel 0) gap_world) in
  pending gap_world = [Timeout 100 0]
  /\ remaining 0 w = []
  /\ isPlaying <$> sequences w !! 0 = Some (Some false)
  /\ exists w',
       run (LFire 0) w = Throw (TypeError (js "this.shutdown is not a function")) w'
       /\ dispatched 0 (log w') = dispatched 0 (log w).
Proof.
  cbn zeta. split; [reflexivity|]. split; [reflexivity|]. split; [reflexivity|].
  eexists. split; [vm_compute; reflexivity|]. reflexivity.
Qed.

(* ----- a second narration ----- *)

(** C1 (amended): speakWithSoundEffects leaves every sequence that
    already exists as it is -- flag, remaining items, handlers held by the
    platform, events -- and on return has only made the new sequence the
    manager's queue. *)
Theorem speakWithSoundEffects_keeps_old_queue (w : World) (q : nat)
    (s : AudioSequence) (text : jsstring) (vp : option jsstring) :
  sequences w !! q = Some s ->
  let r := speakWithSoundEffects text vp w in
  let w1 := world_of r in
  sequences w1 !! q = Some s
  /\ owned q (pending w1) = owned q (pending w)
  /\ seq_events q (log w1) = seq_events q (log w)
  /\ match r with
     | Return qn _ => qn = length (sequences w) /\ qn ≠ q /\ mgr_queue w1 = Some qn
     | Throw _ _ => mgr_queue w1 = mgr_queue w
     end.
Proof.
  intros Hs r w1. subst w1 r. rewrite speakWithSoundEffects_unfold.
  pose proof (lookup_lt_Some _ _ _ Hs) as Hq.
  set (qn := length (sequences w)) in *.
  set (s0 := {| queue := queue (parse text vp); spacing := 100%N; playing := false;
                isPlaying := Some true; currentItem := None |}).
  set (w2 := set_sequences (sequences w ++ [s0]) w).
  assert (sequences w2 !! qn = Some s0) as Hsq by apply lookup_last.
  destruct (queue (parse text vp)) as [|first rest] eqn:Hqs;
    [by destruct (parse_nonempty text vp)|].
  pose proof (doNext_dispatch qn w2 s0 first rest Hsq eq_refl eq_refl)
    as (Hsq' & _ & _ & Hmq & _ & Hpend & Hev & _ & _).
  cbn zeta in *.
  assert (qn ≠ q) as Hne by lia.
  assert (sequences (world_of (doNext qn w2)) !! q = Some s) as H1.
  { rewrite Hsq', list_lookup_insert_ne by done. subst w2. fields.
    by rewrite lookup_app_l. }
  assert (owned q (pending (world_of (doNext qn w2))) = owned q (pending w)) as H2.
  { rewrite Hpend, owned_app, owned_dispatch_other, app_nil_r by done. done. }
  assert (seq_events q (log (world_of (doNext qn w2))) = seq_events q (log w)) as H3.
  { rewrite Hev. by destruct (decide (qn = q)). }
  destruct (doNext qn w2) as [[] w3|e w3]; cbn [world_of] in *; fields; done.
Qed.

(* ----- marker syntax ----- *)



(* ----- the claims as first written, at concrete inputs ----- *)

(* C1 as stated fails: narration_world has the active sequence 0; a
   second speakWithSoundEffects returns sequence 1, and afterwards
   sequence 0 still dispatches its sound, with the play and the
   soundEffect notification that go with it. *)
Lemma new_narration_does_not_cancel :
  let w1 := exec (LSpeakWithSoundEffects (js "again") None) narration_world in
  let w2 := execs [LFire 0; LTick 100; LFire 1] w1 in
  (isPlaying <$> sequences narration_world !! 0) = Some (Some true)
  /\ (exists w', speakWithSoundEffects (js "again") None narration_world = Return 1 w')
  /\ mgr_queue w1 = Some 1
  /\ dispatched 0 (log w1) = [text_item None (js " You win")]
  /\ dispatched 0 (log w2) = [text_item None (js " You win"); sound_item (js "win")]
  /\ sound_effects (log w1) = []
  /\ sound_effects (log w2) = [js "win"].
Proof.
  cbn zeta. split; [reflexivity|]. split; [eexists; vm_compute; reflexivity|].
  repeat split; vm_compute; reflexivity.
Qed.

(* C4 as stated fails: the phrases are not "You win" and "great job". *)
Lemma you_win_items_keep_leading_space :
  item <$> queue (parse (js "You win {{win}} great job") None)
    = [js " You win"; js "win"; js " great job"]
  /\ item <$> queue (parse (js "You win {{win}} great job") None)
    ≠ [js "You win"; js "win"; js "great job"].
Proof. split; [reflexivity|]. vm_compute. discriminate. Qed.



(* ----- the theorems at concrete inputs ----- *)

Lemma reachable_win_world : reachable win_world.
Proof. exists [], [LAddSound (js "win") 7]. reflexivity. Defined.


Lemma sequence_dispatch_order_witness :
  let ls := [LTick 500; LFire 0; LTick 100; LFire 0;
             LTick 30; LFire 0; LTick 250; LFire 0] in
  let w2 := execs ls narration_world in
  reachable win_world
  /\ speakWithSoundEffects (js "You win {{win}} great job") None win_world
     = Return 0 narration_world
  /\ (LCancel 0 ∉ ls)
  /\ dispatched 0 (log w2) ++ remaining 0 w2
     = queue (parse (js "You win {{win}} great job") None)
  /\ well_spaced 100 (seq_events 0 (log w2)) = true
  /\ (fst <$> seq_events 0 (log w2)) = [880; 630; 600; 500; 0]%N.
Proof.
  intros ls w2.
  assert (speakWithSoundEffects (js "You win {{win}} great job") None win_world
          = Return 0 narration_world) as H2 by (vm_compute; reflexivity).
  assert (LCancel 0 ∉ ls) as H3 by (apply (bool_decide_unpack _); vm_compute; exact I).
  split; [exact reachable_win_world|]. split; [exact H2|]. split; [exact H3|].
  destruct (sequence_dispatch_order win_world _ None 0 narration_world ls
              reachable_win_world H2 H3) as (Ha & _ & Hb & _).
  split; [exact Ha|]. split; [exact Hb|]. vm_compute. reflexivity.
Defined.

Lemma you_win_scenario_witness :
  reachable win_world
  /\ soundLibrary win_world !! js "win" = Some 7
  /\ exists w1,
       speakWithSoundEffects (js "You win {{win}} great job") None win_world = Return 0 w1
       /\ dispatched 0 (log (execs [LFire 0; LTick 100; LFire 0;
                                    LFire 0; LTick 100; LFire 0] w1))
          = [text_item None (js " You win"); sound_item (js "win");
             text_item None (js " great job")].
Proof.
  assert (soundLibrary win_world !! js "win" = Some 7) as H2 by (vm_compute; reflexivity).
  split; [exact reachable_win_world|]. split; [exact H2|].
  destruct (you_win_scenario win_world 7 reachable_win_world H2)
    as (_ & w1 & Ha & _ & _ & Hb).
  exists w1. split; [exact Ha | exact Hb].
Defined.

Lemma speakWithSoundEffects_keeps_old_queue_witness :
  let s := {| queue := [sound_item (js "win"); text_item None (js " great job")];
              spacing := 100%N; playing := false; isPlaying := Some true;
              currentItem := None |} in
  let w1 := world_of (speakWithSoundEffects (js "again") None narration_world) in
  sequences narration_world !! 0 = Some s
  /\ sequences w1 !! 0 = Some s
  /\ owned 0 (pending w1) = owned 0 (pending narration_world).
Proof.
  intros s w1.
  assert (sequences narration_world !! 0 = Some s) as H by (vm_compute; reflexivity).
  split; [exact H|].
  destruct (speakWithSoundEffects_keeps_old_queue narration_world 0 s (js "again") None H)
    as (Ha & Hb & _).
  split; [exact Ha | exact Hb].
Defined.


